(** * Verbal-memory game: the engine of [src/game/game.js] in Rocq

    The development embeds the two classes of [game.js]:
    - [MockAPI] (the word supplier and the score sink), and
    - [GameEngine] (the state machine, the countdown and the answer
      evaluation),
    together with the part of the browser they rely on: the table of pending
    [setTimeout] callbacks, the table of live [setInterval] timers, the
    wall clock read by [Date.now()], the stream of [Math.random()] draws, the
    console and the heap of arrays and objects that the engine state refers
    to.  JavaScript numbers that hold counts are integers ([Z]); numbers that
    hold seconds and difficulties are rationals ([Q]), on which [toFixed]
    is exact decimal rounding.  A draw stands for the exact value of the
    double that [Math.random()] returns, and the literal [0.35] for the
    exact value of its double.  The rounding of the double product and
    difference inside [Math.floor(r * n)], [5.0 - d * 3.0] and
    [remaining / 1000] is not modelled: the statements about these values
    are bounds that hold with and without that rounding, and none fixes
    the digit chosen on a decimal tie.

    A statement of the engine is a computation in a state monad that records
    the world after each write; a task of the event loop (a call from
    outside, a timeout that fires, a tick of the countdown) runs one such
    computation to completion.  The properties of the specification are
    stated on single tasks and on runs of tasks:
    - C1  [AnswerFacts.answer_correct_iff_already_seen], after
          [AnswerFacts.answer_refused_under_guard]
    - C2  [ResolutionFacts.second_answer_before_next_word_is_evaluated]
    - C3  [ResolutionFacts.presented_word_appended_twice]
    - C4  [LivesFacts.lives_negative_after_stale_countdown]
    - C5  [GuardFacts.timeout_evaluation_never_sets_guard]
    - C6  [score_counts_correct_answers]
    - C7  [countdown_recomputed_and_fires_once]
    - C8  [SnapshotFacts.getState_is_shallow_copy], after
          [SnapshotFacts.snapshot_shares_array_and_word]
    - C9  [RejectionFacts.illegal_operation_reported_and_ignored]
    - C10 [SupplierContract.getNextWord_bounded_and_in_range] *)

From Stdlib Require Import ZArith QArith Qround Lqa String List Bool Lia.
From stdpp Require Import base list.
From Equations Require Import Equations.
Import ListNotations.

Open Scope string_scope.
Open Scope Z_scope.
Open Scope list_scope.

(** ** JavaScript helpers *)

(** [Array.prototype.includes] on an array of strings. *)
Definition includes (l : list string) (w : string) : bool :=
  existsb (String.eqb w) l.

(** The value read from an array outside its bounds. *)
Definition undefined : string := "undefined".

(** [l[i]] for a number [i] that holds an integer. *)
Definition js_index (l : list string) (i : Z) : string :=
  if i <? 0 then undefined else nth (Z.to_nat i) l undefined.

(** [x < y] on numbers. *)
Definition Qltb (x y : Q) : bool := negb (Qle_bool y x).

(** [Math.max(x, y)]. *)
Definition Qmax (x y : Q) : Q := if Qle_bool x y then y else x.

(** [parseFloat(x.toFixed(f))]: the decimal with [f] digits closest to [x],
    the larger one on a tie; a negative [x] is rounded on its absolute
    value, as [toFixed] prints the sign first. *)
Definition round_half_up (x : Q) : Z := Qfloor (x + (1 # 2))%Q.

Definition toFixed (f : nat) (x : Q) : Q :=
  let scale := Z.pow 10 (Z.of_nat f) in
  if Qltb x 0%Q
  then Qmake (- round_half_up (- x * inject_Z scale)%Q) (Z.to_pos scale)
  else Qmake (round_half_up (x * inject_Z scale)%Q) (Z.to_pos scale).

(** [Math.floor(r * n)] for an array length [n]. *)
Definition floor_scaled (r : Q) (n : nat) : Z :=
  Qfloor (r * inject_Z (Z.of_nat n))%Q.

(** A value together with the proof that it is the value of the expression
    it was computed from; the loop below needs it to know its condition. *)
Definition inspect {A : Type} (a : A) : {b : A | a = b} := exist _ a eq_refl.

(** ** Data model *)

Inductive GamePhase := MENU | PLAYING | GAME_OVER.

(** The object resolved by [getNextWord] and stored as [currentWordData]. *)
Record WordData := mkWordData {
  word : string;
  difficulty : Q;
  time_limit : Q
}.

(** ** MockAPI *)

Module MockAPI.

Definition wordBank : list string :=
  [ "apple"; "logic"; "memory"; "system"; "neural"; "compute"; "vector";
    "matrix"; "binary"; "cache"; "thread"; "kernel"; "buffer"; "pipeline";
    "latency"; "runtime"; "compile"; "debug"; "syntax"; "parser"; "lexer";
    "token"; "stack"; "heap"; "queue"; "graph"; "tree"; "node"; "edge";
    "vertex"; "algorithm"; "function"; "variable"; "object"; "array";
    "string" ].

(** The literal [0.35].  A JavaScript number is a double, and the double
    nearest to 35/100 is 3152519739159347 / 2^53, just below it; the test
    [Math.random() < 0.35] compares the draw with this value. *)
Definition repeatChance : Q := 3152519739159347 # 9007199254740992.

Section Supplier.

(** The successive results of [Math.random()]: draw number [k] is
    [random k]. *)
Variable random : nat -> Q.

(** [this.wordBank[Math.floor(Math.random() * this.wordBank.length)]] on
    draw number [k]. *)
Definition bankWord (k : nat) : string :=
  js_index wordBank (floor_scaled (random k) (length wordBank)).

(** The [do ... while] loop of [getNextWord]: [attempts] is the counter
    before the iteration and [k] the number of draws consumed so far.  The
    result is the word, the final value of [attempts] and the draws
    consumed. *)
Equations? drawWord (seenWords : list string) (attempts : nat) (k : nat)
  : string * nat * nat by wf (50 - attempts)%nat lt :=
  drawWord seenWords attempts k
    with inspect (includes seenWords (bankWord k) && (S attempts <? 50)%nat) := {
    | exist _ true _ => drawWord seenWords (S attempts) (S k)
    | exist _ false _ => (bankWord k, S attempts, S k) }.
Proof.
  apply andb_prop in e. destruct e as [_ e].
  apply Nat.ltb_lt in e. lia.
Qed.

(** The callback that [getNextWord] schedules: [seenWords] is the content of
    the array at the time the callback runs.  The result is the resolved
    object and the number of draws consumed. *)
Definition getNextWord (seenWords : list string) (k : nat) : WordData * nat :=
  let '(shouldRepeat, k) :=
    if (0 <? length seenWords)%nat
    then (Qltb (random k) repeatChance, S k)
    else (false, k) in
  let '(word, k) :=
    if shouldRepeat
    then (js_index seenWords (floor_scaled (random k) (length seenWords)), S k)
    else let '(w, _, k') := drawWord seenWords 0 k in (w, k') in
  let difficulty := random k in
  let time_limit := (5 - difficulty * 3)%Q in
  (mkWordData word (toFixed 2 difficulty) (toFixed 1 time_limit), S k).

End Supplier.

End MockAPI.

(** ** The engine state and the browser around it *)

(** A reference into the heap. *)
Definition loc := nat.

(** The object [this.state].  [seenWords] and [currentWordData] hold
    references: the array and the word object live in the heap. *)
Record GameState := mkGameState {
  authToken : option string;
  gameState : GamePhase;
  gameMode : string;
  currentScore : Z;
  lives : Z;
  seenWords : loc;
  currentWordData : loc;
  timerValue : Q
}.

(** A line printed by [console.log]: literal text and interpolated values. *)
Inductive Part :=
| Lit (s : string)
| Str (s : string)
| Num (n : Z)
| Dec (q : Q).

Definition Line := list Part.

(** The line feed that starts some of the messages. *)
Definition nl : string := String (Ascii.ascii_of_nat 10) "".

(** The callbacks handed to [setTimeout], with the variables they close
    over.  [ResolveWord] is the callback of [MockAPI.getNextWord] followed
    by the rest of [fetchNextWord], which its [resolve] resumes;
    [ResolveSave] is the callback of [MockAPI.saveScore] followed by the
    rest of [gameOver]. *)
Inductive Callback :=
| FetchNextWord
| ResolveWord (seen : loc)
| ResolveSave (score : Z) (mode : string).

Record Timeout := mkTimeout {
  due : Z;
  callback : Callback
}.

(** A live [setInterval] timer of [startTimer]: its handle, the two
    variables its callback closes over, and the time of its next tick. *)
Record Interval := mkInterval {
  handle : positive;
  startTime : Z;
  duration : Q;
  nextTick : Z
}.

Record World := mkWorld {
  (* the GameEngine object *)
  state : GameState;
  timerInterval : option positive;
  isProcessingAnswer : bool;
  (* the heap: arrays of words, word objects, objects returned by getState *)
  arrays : list (list string);
  objects : list WordData;
  snapshots : list GameState;
  (* the browser *)
  timeouts : list Timeout;
  intervals : list Interval;
  nextHandle : positive;
  draws : nat;
  console : list Line;
  clock : Z
}.

Global Instance WordData_inhabited : Inhabited WordData :=
  populate (mkWordData undefined 0 0).

(** *** Field updates *)

Definition set_gameState (v : GamePhase) (s : GameState) : GameState :=
  mkGameState (authToken s) v (gameMode s) (currentScore s) (lives s)
    (seenWords s) (currentWordData s) (timerValue s).

Definition set_gameMode (v : string) (s : GameState) : GameState :=
  mkGameState (authToken s) (gameState s) v (currentScore s) (lives s)
    (seenWords s) (currentWordData s) (timerValue s).

Definition set_currentScore (v : Z) (s : GameState) : GameState :=
  mkGameState (authToken s) (gameState s) (gameMode s) v (lives s)
    (seenWords s) (currentWordData s) (timerValue s).

Definition set_lives (v : Z) (s : GameState) : GameState :=
  mkGameState (authToken s) (gameState s) (gameMode s) (currentScore s) v
    (seenWords s) (currentWordData s) (timerValue s).

Definition set_seenWords (v : loc) (s : GameState) : GameState :=
  mkGameState (authToken s) (gameState s) (gameMode s) (currentScore s)
    (lives s) v (currentWordData s) (timerValue s).

Definition set_currentWordData (v : loc) (s : GameState) : GameState :=
  mkGameState (authToken s) (gameState s) (gameMode s) (currentScore s)
    (lives s) (seenWords s) v (timerValue s).

Definition set_timerValue (v : Q) (s : GameState) : GameState :=
  mkGameState (authToken s) (gameState s) (gameMode s) (currentScore s)
    (lives s) (seenWords s) (currentWordData s) v.

Definition set_state (v : GameState) (w : World) : World :=
  mkWorld v (timerInterval w) (isProcessingAnswer w) (arrays w) (objects w)
    (snapshots w) (timeouts w) (intervals w) (nextHandle w) (draws w)
    (console w) (clock w).

Definition set_timerInterval (v : option positive) (w : World) : World :=
  mkWorld (state w) v (isProcessingAnswer w) (arrays w) (objects w)
    (snapshots w) (timeouts w) (intervals w) (nextHandle w) (draws w)
    (console w) (clock w).

Definition set_isProcessingAnswer (v : bool) (w : World) : World :=
  mkWorld (state w) (timerInterval w) v (arrays w) (objects w)
    (snapshots w) (timeouts w) (intervals w) (nextHandle w) (draws w)
    (console w) (clock w).

Definition set_arrays (v : list (list string)) (w : World) : World :=
  mkWorld (state w) (timerInterval w) (isProcessingAnswer w) v (objects w)
    (snapshots w) (timeouts w) (intervals w) (nextHandle w) (draws w)
    (console w) (clock w).

Definition set_objects (v : list WordData) (w : World) : World :=
  mkWorld (state w) (timerInterval w) (isProcessingAnswer w) (arrays w) v
    (snapshots w) (timeouts w) (intervals w) (nextHandle w) (draws w)
    (console w) (clock w).

Definition set_snapshots (v : list GameState) (w : World) : World :=
  mkWorld (state w) (timerInterval w) (isProcessingAnswer w) (arrays w)
    (objects w) v (timeouts w) (intervals w) (nextHandle w) (draws w)
    (console w) (clock w).

Definition set_timeouts (v : list Timeout) (w : World) : World :=
  mkWorld (state w) (timerInterval w) (isProcessingAnswer w) (arrays w)
    (objects w) (snapshots w) v (intervals w) (nextHandle w) (draws w)
    (console w) (clock w).

Definition set_intervals (v : list Interval) (w : World) : World :=
  mkWorld (state w) (timerInterval w) (isProcessingAnswer w) (arrays w)
    (objects w) (snapshots w) (timeouts w) v (nextHandle w) (draws w)
    (console w) (clock w).

Definition set_nextHandle (v : positive) (w : World) : World :=
  mkWorld (state w) (timerInterval w) (isProcessingAnswer w) (arrays w)
    (objects w) (snapshots w) (timeouts w) (intervals w) v (draws w)
    (console w) (clock w).

Definition set_draws (v : nat) (w : World) : World :=
  mkWorld (state w) (timerInterval w) (isProcessingAnswer w) (arrays w)
    (objects w) (snapshots w) (timeouts w) (intervals w) (nextHandle w) v
    (console w) (clock w).

Definition set_console (v : list Line) (w : World) : World :=
  mkWorld (state w) (timerInterval w) (isProcessingAnswer w) (arrays w)
    (objects w) (snapshots w) (timeouts w) (intervals w) (nextHandle w)
    (draws w) v (clock w).

Definition set_clock (v : Z) (w : World) : World :=
  mkWorld (state w) (timerInterval w) (isProcessingAnswer w) (arrays w)
    (objects w) (snapshots w) (timeouts w) (intervals w) (nextHandle w)
    (draws w) (console w) v.

(** The content of the array [this.state.seenWords] and the word
    [this.state.currentWordData.word]. *)
Definition seenList (w : World) : list string :=
  arrays w !!! seenWords (state w).

Definition currentWord (w : World) : string :=
  word (objects w !!! currentWordData (state w)).

(** ** Statements: a state monad that records every write

    A computation returns its result, the final world and the worlds that
    followed each of its writes, in order. *)

Definition M (A : Type) : Type := World → A * World * list World.

Global Instance M_ret : MRet M := λ A a w, (a, w, []).

Global Instance M_bind : MBind M := λ A B f m w,
  let '(a, w1, l1) := m w in
  let '(b, w2, l2) := f a w1 in
  (b, w2, l1 ++ l2).

Definition get : M World := λ w, (w, w, []).

Definition update (f : World → World) : M unit := λ w, (tt, f w, [f w]).

Definition run {A : Type} (m : M A) (w : World) : World := snd (fst (m w)).

Definition result {A : Type} (m : M A) (w : World) : A := fst (fst (m w)).

Definition writes {A : Type} (m : M A) (w : World) : list World := snd (m w).

(** *** Browser and heap primitives *)

Definition log (l : Line) : M unit :=
  update (λ w, set_console (console w ++ [l]) w).

Definition setTimeout (cb : Callback) (delay : Z) : M unit :=
  update (λ w, set_timeouts (timeouts w ++ [mkTimeout (clock w + delay) cb]) w).

Definition setInterval (start : Z) (dur : Q) (period : Z) : M positive :=
  w ← get;
  update (λ w, set_nextHandle (Pos.succ (nextHandle w))
                 (set_intervals
                    (intervals w ++
                     [mkInterval (nextHandle w) start dur (clock w + period)]) w));;
  mret (nextHandle w).

Definition clearInterval (h : positive) : M unit :=
  update (λ w, set_intervals
                 (List.filter (λ i, negb (Pos.eqb (handle i) h)) (intervals w)) w).

Definition newArray (a : list string) : M loc :=
  w ← get;
  update (λ w, set_arrays (arrays w ++ [a]) w);;
  mret (length (arrays w)).

Definition newObject (o : WordData) : M loc :=
  w ← get;
  update (λ w, set_objects (objects w ++ [o]) w);;
  mret (length (objects w)).

Definition newSnapshot (s : GameState) : M loc :=
  w ← get;
  update (λ w, set_snapshots (snapshots w ++ [s]) w);;
  mret (length (snapshots w)).

(** [a.push(x)] on the array at [l]. *)
Definition push (l : loc) (x : string) : M unit :=
  update (λ w, set_arrays (alter (λ a, a ++ [x]) l (arrays w)) w).

Definition is_playing (s : GameState) : bool :=
  match gameState s with PLAYING => true | _ => false end.

(** ** GameEngine *)

Module GameEngine.

Section Engine.

Variable random : nat → Q.

(** *** Countdown *)

(** A handle is a positive number, so [if (this.timerInterval)] tests for
    [null]. *)
Definition stopTimer : M unit :=
  w ← get;
  match timerInterval w with
  | Some h =>
      clearInterval h;;
      update (set_timerInterval None)
  | None => mret tt
  end.

(** The part of [gameOver] that runs before its [await] returns control:
    [saveScore] has scheduled its callback. *)
Definition gameOver : M unit :=
  stopTimer;;
  update (λ w, set_state (set_gameState GAME_OVER (state w)) w);;
  log [Lit (nl ++ "=== GAME OVER ===")%string];;
  w ← get;
  log [Lit "Final Score: "; Num (currentScore (state w))];;
  log [Lit "Mode: "; Str (gameMode (state w))];;
  setTimeout (ResolveSave (currentScore (state w)) (gameMode (state w))) 100.

(** The callback of [saveScore] and the rest of [gameOver]. *)
Definition resolveSave (score : Z) (mode : string) : M unit :=
  log [Lit (nl ++ "=== SCORE SAVED ===")%string];;
  log [Lit "Score: "; Num score];;
  log [Lit "Mode: "; Str mode];;
  log [Lit (nl ++ "Start a new game with: game.startGame()")%string];;
  update (set_isProcessingAnswer false).

(** The part of [fetchNextWord] that runs before its [await] returns
    control: [getNextWord] has received the array and scheduled its
    callback. *)
Definition fetchNextWord : M unit :=
  w ← get;
  if negb (is_playing (state w)) then mret tt
  else setTimeout (ResolveWord (seenWords (state w))) 100.

Definition handleCorrectAnswer : M unit :=
  log [Lit "✓ CORRECT!"];;
  update (λ w, set_state (set_currentScore (currentScore (state w) + 1) (state w)) w);;
  w ← get;
  log [Lit "Score: "; Num (currentScore (state w))];;
  push (seenWords (state w)) (currentWord w);;
  update (set_isProcessingAnswer false);;
  setTimeout FetchNextWord 500.

Definition handleWrongAnswer : M unit :=
  log [Lit "✗ WRONG!"];;
  update (λ w, set_state (set_lives (lives (state w) - 1) (state w)) w);;
  w ← get;
  log [Lit "Lives remaining: "; Num (lives (state w))];;
  push (seenWords (state w)) (currentWord w);;
  if lives (state w) <=? 0 then gameOver
  else
    update (set_isProcessingAnswer false);;
    setTimeout FetchNextWord 500.

Definition handleTimerExpiry : M unit :=
  w ← get;
  if isProcessingAnswer w then mret tt
  else
    stopTimer;;
    log [Lit (nl ++ "⏰ TIME'S UP!")%string];;
    handleWrongAnswer.

(** The callback of the interval armed by [startTimer], with the two
    variables it closes over. *)
Definition tick (start : Z) (dur : Q) : M unit :=
  w ← get;
  let elapsed := clock w - start in
  let remaining := (Qmax 0 (dur - inject_Z elapsed) / 1000)%Q in
  update (λ w, set_state (set_timerValue (toFixed 1 remaining) (state w)) w);;
  if Qle_bool remaining 0 then handleTimerExpiry else mret tt.

Definition startTimer : M unit :=
  stopTimer;;
  w ← get;
  let start := clock w in
  let dur := (timerValue (state w) * 1000)%Q in
  h ← setInterval start dur 100;
  update (set_timerInterval (Some h)).

(** The callback of [getNextWord], reading the array it was given, and the
    rest of [fetchNextWord]. *)
Definition resolveWord (seen : loc) : M unit :=
  w ← get;
  let '(wordData, k) := MockAPI.getNextWord random (arrays w !!! seen) (draws w) in
  update (set_draws k);;
  l ← newObject wordData;
  update (λ w, set_state (set_currentWordData l (state w)) w);;
  update (λ w, set_state (set_timerValue (time_limit wordData) (state w)) w);;
  log [Lit (nl ++ "--- NEW WORD ---")%string];;
  log [Lit "Word: "; Str (word wordData)];;
  log [Lit "Difficulty: "; Dec (difficulty wordData)];;
  log [Lit "Time Limit: "; Dec (time_limit wordData); Lit "s"];;
  w ← get;
  log [Lit "Score: "; Num (currentScore (state w)); Lit " | Lives: ";
       Num (lives (state w))];;
  startTimer.

(** *** Operations *)

Definition startGame : M unit :=
  w ← get;
  if is_playing (state w) then log [Lit "Game already in progress!"]
  else
    log [Lit (nl ++ "=== GAME STARTED ===")%string];;
    log [Lit "Mode: "; Str (gameMode (state w))];;
    update (λ w, set_state (set_gameState PLAYING (state w)) w);;
    update (λ w, set_state (set_currentScore 0 (state w)) w);;
    update (λ w, set_state (set_lives 3 (state w)) w);;
    l ← newArray [];
    update (λ w, set_state (set_seenWords l (state w)) w);;
    fetchNextWord.

Definition answerSeen : M unit :=
  w ← get;
  if negb (is_playing (state w))
  then log [Lit "No game in progress. Call game.startGame() first."]
  else if isProcessingAnswer w
  then log [Lit "Already processing an answer..."]
  else
    update (set_isProcessingAnswer true);;
    stopTimer;;
    w ← get;
    let isCorrect := includes (seenList w) (currentWord w) in
    log [Lit (nl ++ "You answered: SEEN")%string];;
    if isCorrect then handleCorrectAnswer else handleWrongAnswer.

Definition answerNew : M unit :=
  w ← get;
  if negb (is_playing (state w))
  then log [Lit "No game in progress. Call game.startGame() first."]
  else if isProcessingAnswer w
  then log [Lit "Already processing an answer..."]
  else
    update (set_isProcessingAnswer true);;
    stopTimer;;
    w ← get;
    let isCorrect := negb (includes (seenList w) (currentWord w)) in
    log [Lit (nl ++ "You answered: NEW")%string];;
    if isCorrect then handleCorrectAnswer else handleWrongAnswer.

(** [{ ...this.state }]: a new object with the fields of [this.state]. *)
Definition getState : M loc :=
  w ← get;
  newSnapshot (state w).

Definition setMode (mode : string) : M unit :=
  if negb (includes ["easy"; "medium"; "hard"] mode)
  then log [Lit "Invalid mode. Use: 'easy', 'medium', or 'hard'"]
  else
    w ← get;
    if is_playing (state w)
    then log [Lit "Cannot change mode during active game."]
    else
      update (λ w, set_state (set_gameMode mode (state w)) w);;
      log [Lit "Mode set to: "; Str mode].

End Engine.

End GameEngine.

(** ** The event loop

    One event is one task of the browser: a call of an operation of the
    engine from outside, a pending timeout that fires or a tick of a live
    interval.  A task runs to completion at one reading [t] of the clock;
    the clock never goes back, a timeout never fires before it is due and an
    interval never ticks before its next tick is due. *)

Inductive Event :=
| StartGame
| AnswerSeen
| AnswerNew
| SetMode (mode : string)
| GetState
| Fire (n : nat)
| Tick (h : positive).

Section Loop.

Variable random : nat → Q.

Definition fire (cb : Callback) : M unit :=
  match cb with
  | FetchNextWord => GameEngine.fetchNextWord
  | ResolveWord seen => GameEngine.resolveWord random seen
  | ResolveSave score mode => GameEngine.resolveSave score mode
  end.

Definition findInterval (h : positive) (w : World) : option Interval :=
  List.find (λ i, Pos.eqb (handle i) h) (intervals w).

(** The interval [h] is due again one period after the tick that fires. *)
Definition reschedule (h : positive) (w : World) : World :=
  set_intervals
    (List.map (λ i, if Pos.eqb (handle i) h
                    then mkInterval (handle i) (startTime i) (duration i)
                           (nextTick i + 100)
                    else i) (intervals w)) w.

(** The computation that the event runs, if the event can happen in [w] at
    clock [clock w]. *)
Definition task (e : Event) (w : World) : option (M unit * World) :=
  match e with
  | StartGame => Some (GameEngine.startGame, w)
  | AnswerSeen => Some (GameEngine.answerSeen, w)
  | AnswerNew => Some (GameEngine.answerNew, w)
  | SetMode mode => Some (GameEngine.setMode mode, w)
  | GetState => Some (GameEngine.getState ≫= λ _, mret tt, w)
  | Fire n =>
      match timeouts w !! n with
      | Some p =>
          if due p <=? clock w
          then Some (fire (callback p), set_timeouts (delete n (timeouts w)) w)
          else None
      | None => None
      end
  | Tick h =>
      match findInterval h w with
      | Some i =>
          if nextTick i <=? clock w
          then Some (GameEngine.tick (startTime i) (duration i), reschedule h w)
          else None
      | None => None
      end
  end.

Definition exec (t : Z) (e : Event) (w : World) : option World :=
  if t <? clock w then None
  else
    match task e (set_clock t w) with
    | Some (m, w1) => Some (run m w1)
    | None => None
    end.

Fixpoint execAll (es : list (Z * Event)) (w : World) : option World :=
  match es with
  | [] => Some w
  | (t, e) :: es' =>
      match exec t e w with
      | Some w' => execAll es' w'
      | None => None
      end
  end.

End Loop.

(** The world after the script has run: [new GameEngine()] and the banner
    printed at load time, at clock [t0]. *)
Definition banner : list Line :=
  [ [Lit "=== VERBAL MEMORY GAME ==="];
    [Lit "Commands:"];
    [Lit "  game.startGame()    - Start a new game"];
    [Lit "  game.answerSeen()   - Answer 'SEEN'"];
    [Lit "  game.answerNew()    - Answer 'NEW'"];
    [Lit "  game.setMode(mode)  - Set difficulty ('easy'/'medium'/'hard')"];
    [Lit "  game.getState()     - View current state"];
    [Lit (nl ++ "Ready to play!")%string] ].

Definition initial (t0 : Z) : World :=
  mkWorld
    (mkGameState None MENU "medium" 0 3 0%nat 0%nat 0)
    None false
    [[]] [mkWordData "" (5 # 10) 0] []
    [] [] 1%positive 0%nat banner t0.

(** The worlds that the engine can be in: those that some sequence of
    events leads to from the initial one. *)
Inductive reachable (random : nat → Q) : World → Prop :=
| reachable_initial t0 : reachable random (initial t0)
| reachable_step w t e w' :
    reachable random w → exec random t e w = Some w' → reachable random w'.

(** *** Tasks that run on time

    A task is overdue at [t] when it was due before [t].  A run is on time
    when no event happens while another task is overdue: the browser had
    nothing else to do and ran every callback in the millisecond it was due. *)

Definition timeoutOverdue (t : Z) (w : World) : bool :=
  existsb (λ p, due p <? t) (timeouts w).

Definition tickOverdue (t : Z) (w : World) : bool :=
  existsb (λ i, nextTick i <? t) (intervals w).

Definition overdue (t : Z) (w : World) : bool :=
  timeoutOverdue t w || tickOverdue t w.

Section OnTime.

Variable random : nat → Q.

Definition execOnTime (t : Z) (e : Event) (w : World) : option World :=
  if overdue t w then None else exec random t e w.

Fixpoint execAllOnTime (es : list (Z * Event)) (w : World) : option World :=
  match es with
  | [] => Some w
  | (t, e) :: es' =>
      match execOnTime t e w with
      | Some w' => execAllOnTime es' w'
      | None => None
      end
  end.

(** *** Resolutions of a round

    An event starts a round when it is a [startGame] that is not rejected;
    it is a correct answer when it is an answer that is evaluated and whose
    claim agrees with the membership of the current word in [seenWords]. *)

Definition startsRound (e : Event) (w : World) : bool :=
  match e with
  | StartGame => negb (is_playing (state w))
  | _ => false
  end.

Definition evaluated (w : World) : bool :=
  is_playing (state w) && negb (isProcessingAnswer w).

Definition correctAnswer (e : Event) (w : World) : bool :=
  match e with
  | AnswerSeen => evaluated w && includes (seenList w) (currentWord w)
  | AnswerNew => evaluated w && negb (includes (seenList w) (currentWord w))
  | _ => false
  end.

(** The number of correct answers since the last start of a round, along a
    run from [w] that had [n] of them so far. *)
Fixpoint correctSinceStart (es : list (Z * Event)) (w : World) (n : nat) : nat :=
  match es with
  | [] => n
  | (t, e) :: es' =>
      match exec random t e w with
      | Some w' =>
          correctSinceStart es' w'
            (if startsRound e w then 0%nat
             else if correctAnswer e w then S n else n)
      | None => n
      end
  end.

End OnTime.

(** The ticks of interval [h] at [first], [first + 100], ..., [n] of them. *)
Definition ticks (h : positive) (first : Z) (n : nat) : list (Z * Event) :=
  List.map (λ k, (first + 100 * Z.of_nat k, Tick h)) (seq 0 n).

(** *** The holder of an object returned by [getState] *)

Global Instance GameState_inhabited : Inhabited GameState :=
  populate (mkGameState None MENU "" 0 0 0%nat 0%nat 0).

(** What [snapshot.seenWords] shows to the holder of the object at [l]. *)
Definition snapshotSeen (w : World) (l : loc) : list string :=
  arrays w !!! seenWords (snapshots w !!! l).

(** [snapshot.field = v]: an assignment to a field of the object at [l]. *)
Definition holderAssign (l : loc) (f : GameState → GameState) : M unit :=
  update (λ w, set_snapshots (alter f l (snapshots w)) w).

(** [snapshot.seenWords.push(x)]. *)
Definition holderPush (l : loc) (x : string) : M unit :=
  w ← get;
  push (seenWords (snapshots w !!! l)) x.

(** [snapshot.currentWordData.word = x]. *)
Definition holderSetWord (l : loc) (x : string) : M unit :=
  update (λ w, set_objects
                 (alter (λ o, mkWordData x (difficulty o) (time_limit o))
                    (currentWordData (snapshots w !!! l)) (objects w)) w).

(** What of the world belongs to the engine: its state, its two private
    fields and the array and the object that its state refers to. *)
Definition engineView (w : World)
  : GameState * option positive * bool * list string * WordData :=
  (state w, timerInterval w, isProcessingAnswer w,
   seenList w, objects w !!! currentWordData (state w)).

(** *** Invariants of the reachable worlds *)

(** At most one interval is live, and it is the one that [timerInterval]
    holds. *)
Definition timerOwned (w : World) : Prop :=
  match timerInterval w with
  | Some h => ∃ i, intervals w = [i] ∧ handle i = h
  | None => intervals w = []
  end.

Definition isSave (cb : Callback) : Prop :=
  match cb with ResolveSave _ _ => True | _ => False end.

Record Invariant (w : World) : Prop := mkInvariant {
  inv_owned : timerOwned w;
  inv_object : (currentWordData (state w) < length (objects w))%nat;
  inv_duration : ∀ i, In i (intervals w) →
    duration i = (time_limit (objects w !!! currentWordData (state w)) * 1000)%Q
    ∧ (2000 <= duration i)%Q
    ∧ startTime i <= clock w;
  inv_timer : (0 <= timerValue (state w))%Q;
  inv_save : ∀ p, In p (timeouts w) → isSave (callback p) →
    due p <= clock w + 100;
  inv_guard : isProcessingAnswer w = true →
    ∃ p, In p (timeouts w) ∧ isSave (callback p)
         ∧ ∀ i, In i (intervals w) → due p <= startTime i + 100
}.

(** *** A stream of draws for the examples *)

Definition sampleRandom (n : nat) : Q :=
  Qmake (Z.of_nat ((n * 37) mod 100)) 100.

(** The world that an on-time run of the events leads to from the initial
    world at clock 0, with the draws of [sampleRandom]. *)
Definition worldAfter (es : list (Z * Event)) : World :=
  match execAllOnTime sampleRandom es (initial 0) with
  | Some w => w
  | None => initial 0
  end.

(** A game has started and its first word, "apple", has been presented. *)
Definition firstWord : list (Z * Event) :=
  [(0, StartGame); (100, Fire 0%nat)].

(** "apple" has been on display for 900 ms. *)
Definition presented : list (Z * Event) :=
  firstWord ++ ticks 1 200 9.

(** The player answers NEW while "apple" is on display and then SEEN,
    250 ms later, before the next word has been fetched. *)
Definition doubleAnswer : list (Z * Event) :=
  presented ++ [(1050, AnswerNew); (1300, AnswerSeen)].

(** The player answers "apple" three times, incorrectly each time; the
    third answer comes while the next word is being fetched and takes the
    last life. *)
Definition gameLost : list (Z * Event) :=
  presented
  ++ [(1050, AnswerSeen); (1300, AnswerNew); (1550, Fire 0%nat);
      (1600, AnswerNew)].

(** The word arrives after the end of the round, its countdown is armed
    and runs out. *)
Definition staleCountdown : list (Z * Event) :=
  gameLost
  ++ [(1650, Fire 1%nat); (1700, Fire 1%nat); (1750, Tick 2%positive);
      (1800, Fire 0%nat)]
  ++ ticks 2 1850 35.

(** A new round is started 10 ms after the round was lost, while the score
    is being saved, and the word requested by the lost round, "system",
    arrives in it at 1650 ms. *)
Definition guardedRound : list (Z * Event) :=
  gameLost ++ [(1610, StartGame); (1650, Fire 1%nat)].

(** The countdown of "apple" has run for 3.8 of its 3.9 seconds. *)
Definition beforeExpiry : list (Z * Event) :=
  firstWord ++ ticks 1 200 38.

(** The caller has taken a snapshot while "apple" is on display. *)
Definition snapshotTaken : World :=
  run GameEngine.getState (worldAfter presented).

(** *** More invariants of the reachable worlds *)

(** Every reference that the engine, a pending [getNextWord] or an object
    returned by [getState] holds points into the heap. *)
Definition refsValid (w : World) : Prop :=
  (seenWords (state w) < length (arrays w))%nat
  ∧ (currentWordData (state w) < length (objects w))%nat
  ∧ (∀ p seen, In p (timeouts w) → callback p = ResolveWord seen →
       (seen < length (arrays w))%nat)
  ∧ (∀ s, In s (snapshots w) →
       (seenWords s < length (arrays w))%nat
       ∧ (currentWordData s < length (objects w))%nat).

(** A word of the bank, or the empty word that the constructor installs. *)
Definition knownWord (x : string) : Prop :=
  x = "" ∨ In x MockAPI.wordBank.

Definition wordsKnown (w : World) : Prop :=
  (∀ a x, In a (arrays w) → In x a → knownWord x)
  ∧ (∀ o, In o (objects w) → knownWord (word o)).

Definition boundsKept (w : World) : Prop :=
  lives (state w) <= 3
  ∧ 0 <= currentScore (state w)
  ∧ (gameState (state w) = PLAYING → 1 <= lives (state w)).

Definition modeKnown (w : World) : Prop :=
  In (gameMode (state w)) ["easy"; "medium"; "hard"].

(** *** Kinds of events *)

Definition isStart (e : Event) : Prop :=
  match e with StartGame => True | _ => False end.

(** The events that can run [handleWrongAnswer] or [handleTimerExpiry]. *)
Definition isResolution (e : Event) : Prop :=
  match e with AnswerSeen | AnswerNew | Tick _ => True | _ => False end.

Definition noStart (es : list (Z * Event)) : Prop :=
  Forall (λ te, ¬ isStart (snd te)) es.


(** ** The page of [ui.js]

    The three elements that [render] writes, the buttons and the poll.  The
    text of an element is kept as the values it prints: a [Line] for the
    template of the status, and for the debug element the value that
    [JSON.stringify] writes out, the fields of the object returned by
    [getState] with the array and the word object that it refers to. *)

Module UI.

Record StateJson := mkStateJson {
  jsonState : GameState;
  jsonSeenWords : list string;
  jsonCurrentWordData : WordData
}.

Record Dom := mkDom {
  statusText : Line;
  wordText : string;
  debugText : StateJson
}.

Record Page := mkPage {
  world : World;
  dom : Dom
}.

(** The string that [gameState] holds. *)
Definition phaseName (p : GamePhase) : string :=
  match p with
  | MENU => "MENU"
  | PLAYING => "PLAYING"
  | GAME_OVER => "GAME_OVER"
  end.

(** [s || ""] on a string. *)
Definition orEmpty (s : string) : string :=
  if String.eqb s "" then "" else s.

Definition render (p : Page) : Page :=
  let l := result GameEngine.getState (world p) in
  let w := run GameEngine.getState (world p) in
  let state := snapshots w !!! l in
  mkPage w
    (mkDom
       [Lit "Score: "; Num (currentScore state); Lit " | Lives: ";
        Num (lives state); Lit " | "; Lit "Timer: "; Dec (timerValue state);
        Lit "s | State: "; Str (phaseName (gameState state))]
       (orEmpty (word (objects w !!! currentWordData state)))
       (mkStateJson state (arrays w !!! seenWords state)
          (objects w !!! currentWordData state))).

(** What happens on the page: a click on one of the three buttons, a tick
    of the poll, or a task of the engine (a timeout, a tick of the
    countdown, a call from the console). *)
Inductive Action :=
| ClickStart
| ClickSeen
| ClickNew
| Poll
| Task (e : Event).

Section Page.

Variable random : nat → Q.

Definition click (t : Z) (e : Event) (p : Page) : option Page :=
  match exec random t e (world p) with
  | Some w => Some (render (mkPage w (dom p)))
  | None => None
  end.

Definition act (t : Z) (a : Action) (p : Page) : option Page :=
  match a with
  | ClickStart => click t StartGame p
  | ClickSeen => click t AnswerSeen p
  | ClickNew => click t AnswerNew p
  | Poll =>
      if t <? clock (world p) then None
      else
        let w0 := set_clock t (world p) in
        let l := result GameEngine.getState w0 in
        let w := run GameEngine.getState w0 in
        if is_playing (snapshots w !!! l)
        then Some (render (mkPage w (dom p)))
        else Some (mkPage w (dom p))
  | Task e =>
      match exec random t e (world p) with
      | Some w => Some (mkPage w (dom p))
      | None => None
      end
  end.

Fixpoint actAll (acts : list (Z * Action)) (p : Page) : option Page :=
  match acts with
  | [] => Some p
  | (t, a) :: acts' =>
      match act t a p with
      | Some p' => actAll acts' p'
      | None => None
      end
  end.

End Page.

(** An action that is neither a click nor a call of [startGame]. *)
Definition quiet (a : Action) : Prop :=
  match a with
  | Poll => True
  | Task StartGame => False
  | Task _ => True
  | _ => False
  end.

End UI.

(** The world without the objects that [getState] has returned. *)
Definition forgetSnapshots (w : World) : World := set_snapshots [] w.

(** The operation of the engine that an action of the page runs. *)
Definition engineEvent (a : UI.Action) : Event :=
  match a with
  | UI.ClickStart => StartGame
  | UI.ClickSeen => AnswerSeen
  | UI.ClickNew => AnswerNew
  | UI.Poll => GetState
  | UI.Task e => e
  end.

Definition engineEvents (acts : list (Z * UI.Action)) : list (Z * Event) :=
  List.map (λ ta, (fst ta, engineEvent (snd ta))) acts.

(** A page whose elements are empty, on the initial world. *)
Definition blankPage : UI.Page :=
  UI.mkPage (initial 0)
    (UI.mkDom [] ""
       (UI.mkStateJson (state (initial 0)) [] (mkWordData "" 0 0))).

(** A game played on the page: two incorrect clicks on "apple", then the
    third word, "matrix", is left unanswered; the poll at 5050 ms renders
    the page, with one life left. *)
Definition lastLife : list (Z * UI.Action) :=
  [(0, UI.ClickStart); (100, UI.Task (Fire 0%nat))]
  ++ List.map (λ te, (fst te, UI.Task (snd te))) (ticks 1 200 9)
  ++ [(1050, UI.ClickSeen); (1300, UI.ClickNew); (1550, UI.Task (Fire 0%nat));
      (1650, UI.Task (Fire 1%nat)); (1750, UI.Task (Tick 2%positive));
      (1800, UI.Task (Fire 0%nat)); (1850, UI.Task (Tick 2%positive));
      (1900, UI.Task (Fire 0%nat))]
  ++ List.map (λ te, (fst te, UI.Task (snd te))) (ticks 3 2000 31)
  ++ [(5050, UI.Poll)].

Definition pageAfter (acts : list (Z * UI.Action)) : UI.Page :=
  match UI.actAll sampleRandom acts blankPage with
  | Some p => p
  | None => blankPage
  end.

(** The world without the places in which the mode is written: the field
    [gameMode] of the state and of the objects that [getState] has
    returned, the argument of a pending [saveScore], and the console. *)
Definition eraseMode (s : GameState) : GameState := set_gameMode "" s.

Definition eraseSavedMode (p : Timeout) : Timeout :=
  match callback p with
  | ResolveSave score _ => mkTimeout (due p) (ResolveSave score "")
  | _ => p
  end.

Definition forgetMode (w : World) : World :=
  mkWorld (eraseMode (state w)) (timerInterval w) (isProcessingAnswer w)
    (arrays w) (objects w) (List.map eraseMode (snapshots w))
    (List.map eraseSavedMode (timeouts w)) (intervals w) (nextHandle w)
    (draws w) [] (clock w).

(** *** More runs for the examples *)

(** Two incorrect answers on "apple" have left one life; the third word,
    "matrix", has just been presented and has not been seen. *)
Definition lastWord : list (Z * Event) :=
  presented
  ++ [(1050, AnswerSeen); (1300, AnswerNew); (1550, Fire 0%nat);
      (1650, Fire 1%nat); (1750, Tick 2%positive); (1800, Fire 0%nat);
      (1850, Tick 2%positive); (1900, Fire 0%nat)].

(** The caller takes a snapshot of the round that has been lost. *)
Definition roundOver : list (Z * Event) :=
  gameLost ++ [(1620, GetState)].

(** * Properties *)

(** ** Rounding *)

Lemma round_half_up_lower (z : Z) (y : Q) :
  (inject_Z z <= y)%Q → z <= round_half_up y.
Proof.
  intros Hy. unfold round_half_up.
  rewrite <- (Qfloor_Z z). apply Qfloor_resp_le.
  apply Qle_trans with (1 := Hy).
  rewrite <- (Qplus_0_r y) at 1. apply Qplus_le_compat; [apply Qle_refl | easy].
Qed.

Lemma Qfloor_half (z : Z) : Qfloor (inject_Z z + (1 # 2)) = z.
Proof.
  unfold Qfloor, Qplus, inject_Z. simpl.
  Z.to_euclidean_division_equations. lia.
Qed.

Lemma round_half_up_upper (z : Z) (y : Q) :
  (y <= inject_Z z)%Q → round_half_up y <= z.
Proof.
  intros Hy. unfold round_half_up.
  rewrite <- (Qfloor_half z). apply Qfloor_resp_le.
  apply Qplus_le_compat; [exact Hy | apply Qle_refl].
Qed.

Lemma scale_pos (f : nat) : 0 < 10 ^ Z.of_nat f.
Proof. apply Z.pow_pos_nonneg; lia. Qed.

(** Rounding a number that is not negative keeps it between the integers
    that bound it. *)
Lemma toFixed_between (f : nat) (lo hi : Z) (x : Q) :
  (0 <= x)%Q → (inject_Z lo <= x)%Q → (x <= inject_Z hi)%Q →
  (inject_Z lo <= toFixed f x)%Q ∧ (toFixed f x <= inject_Z hi)%Q.
Proof.
  intros H0 Hlo Hhi. unfold toFixed.
  assert (Hneg : Qltb x 0 = false).
  { unfold Qltb. apply negb_false_iff. now apply Qle_bool_iff. }
  rewrite Hneg.
  pose proof (scale_pos f) as Hs.
  set (s := 10 ^ Z.of_nat f) in *.
  assert (HsQ : (0 <= inject_Z s)%Q).
  { change 0%Q with (inject_Z 0). rewrite <- Zle_Qle. lia. }
  unfold Qle. cbn [Qnum Qden inject_Z].
  rewrite Z2Pos.id by exact Hs. rewrite !Z.mul_1_r. split.
  - apply round_half_up_lower. rewrite inject_Z_mult.
    now apply Qmult_le_compat_r.
  - apply round_half_up_upper. rewrite inject_Z_mult.
    now apply Qmult_le_compat_r.
Qed.

Lemma toFixed_nonneg (f : nat) (x : Q) : (0 <= x)%Q → (0 <= toFixed f x)%Q.
Proof.
  intros H0. unfold toFixed.
  assert (Hneg : Qltb x 0 = false).
  { unfold Qltb. apply negb_false_iff. now apply Qle_bool_iff. }
  rewrite Hneg.
  pose proof (scale_pos f) as Hs.
  unfold Qle. cbn [Qnum Qden]. rewrite Z.mul_1_r. cbn [Z.mul].
  apply (round_half_up_lower 0).
  apply Qmult_le_0_compat; [exact H0 |].
  change 0%Q with (inject_Z 0). rewrite <- Zle_Qle. lia.
Qed.

Lemma Qmax_nonneg (y : Q) : (0 <= Qmax 0 y)%Q.
Proof.
  unfold Qmax. destruct (Qle_bool 0 y) eqn:E.
  - now apply Qle_bool_iff.
  - apply Qle_refl.
Qed.

(** The distance between a number and its rounding. *)

Lemma Qltb_nonneg (x : Q) : (0 <= x)%Q → Qltb x 0 = false.
Proof. intros H. unfold Qltb. apply negb_false_iff. now apply Qle_bool_iff. Qed.

Lemma round_half_up_mono (x y : Q) :
  (x <= y)%Q → round_half_up x <= round_half_up y.
Proof.
  intros H. unfold round_half_up. apply Qfloor_resp_le.
  apply Qplus_le_compat; [exact H | apply Qle_refl].
Qed.

Lemma toFixed_mono (f : nat) (x y : Q) :
  (0 <= x)%Q → (x <= y)%Q → (toFixed f x <= toFixed f y)%Q.
Proof.
  intros H0 Hxy. unfold toFixed.
  rewrite (Qltb_nonneg x H0), (Qltb_nonneg y (Qle_trans _ _ _ H0 Hxy)).
  pose proof (scale_pos f) as Hs.
  unfold Qle. cbn [Qnum Qden].
  apply Z.mul_le_mono_nonneg_r; [lia |].
  apply round_half_up_mono. apply Qmult_le_compat_r; [exact Hxy |].
  change 0%Q with (inject_Z 0). rewrite <- Zle_Qle. lia.
Qed.

Lemma half_shift (y q : Q) : (y + (1 # 2) < q + 1)%Q → (y - (1 # 2) < q)%Q.
Proof. intros. lra. Qed.

Lemma round_half_up_bounds (y : Q) :
  (inject_Z (round_half_up y) <= y + (1 # 2))%Q
  ∧ (y - (1 # 2) < inject_Z (round_half_up y))%Q.
Proof.
  unfold round_half_up. split.
  - apply Qfloor_le.
  - pose proof (Qlt_floor (y + (1 # 2))) as H.
    rewrite inject_Z_plus in H. now apply half_shift.
Qed.

Lemma tenth_error (x q : Q) :
  (q <= x * 10 + (1 # 2))%Q → (x * 10 - (1 # 2) < q)%Q →
  (x - (1 # 20) <= q / 10)%Q ∧ (q / 10 <= x + (1 # 20))%Q.
Proof.
  intros. unfold Qdiv. change (/ 10)%Q with (1 # 10)%Q. split; lra.
Qed.

Lemma hundredth_error (x q : Q) :
  (q <= x * 100 + (1 # 2))%Q → (x * 100 - (1 # 2) < q)%Q →
  (x - (1 # 200) <= q / 100)%Q ∧ (q / 100 <= x + (1 # 200))%Q.
Proof.
  intros. unfold Qdiv. change (/ 100)%Q with (1 # 100)%Q. split; lra.
Qed.

Lemma toFixed1_error (x : Q) :
  (0 <= x)%Q →
  (x - (1 # 20) <= toFixed 1 x)%Q ∧ (toFixed 1 x <= x + (1 # 20))%Q.
Proof.
  intros H0. unfold toFixed. rewrite (Qltb_nonneg x H0).
  change (10 ^ Z.of_nat 1) with 10. change (Z.to_pos 10) with 10%positive.
  destruct (round_half_up_bounds (x * inject_Z 10)) as [H1 H2].
  rewrite (Qmake_Qdiv (round_half_up (x * inject_Z 10)) 10).
  exact (tenth_error x _ H1 H2).
Qed.

Lemma toFixed2_error (x : Q) :
  (0 <= x)%Q →
  (x - (1 # 200) <= toFixed 2 x)%Q ∧ (toFixed 2 x <= x + (1 # 200))%Q.
Proof.
  intros H0. unfold toFixed. rewrite (Qltb_nonneg x H0).
  change (10 ^ Z.of_nat 2) with 100. change (Z.to_pos 100) with 100%positive.
  destruct (round_half_up_bounds (x * inject_Z 100)) as [H1 H2].
  rewrite (Qmake_Qdiv (round_half_up (x * inject_Z 100)) 100).
  exact (hundredth_error x _ H1 H2).
Qed.

(** ** The word supplier *)

Module MockAPIFacts.

Import MockAPI.

Section Supplier.

Variable random : nat → Q.
Hypothesis random_range : ∀ n, (0 <= random n)%Q ∧ (random n < 1)%Q.

(** [Math.floor(Math.random() * n)] is an index of an array of length
    [n]. *)
Lemma floor_scaled_range (k n : nat) :
  (0 < n)%nat → 0 <= floor_scaled (random k) n < Z.of_nat n.
Proof.
  intros Hn. destruct (random_range k) as [H0 H1]. unfold floor_scaled.
  assert (HnQ : (0 < inject_Z (Z.of_nat n))%Q).
  { change 0%Q with (inject_Z 0). rewrite <- Zlt_Qlt. lia. }
  split.
  - rewrite <- (Qfloor_Z 0). apply Qfloor_resp_le.
    apply Qmult_le_0_compat; [exact H0 | now apply Qlt_le_weak].
  - assert (Hlt : (random k * inject_Z (Z.of_nat n) < inject_Z (Z.of_nat n))%Q).
    { rewrite <- (Qmult_1_l (inject_Z (Z.of_nat n))) at 2.
      now apply Qmult_lt_r. }
    pose proof (Qfloor_le (random k * inject_Z (Z.of_nat n))) as Hf.
    rewrite Zlt_Qlt. eapply Qle_lt_trans; eassumption.
Qed.

Lemma js_index_in (l : list string) (k : nat) :
  (0 < length l)%nat → In (js_index l (floor_scaled (random k) (length l))) l.
Proof.
  intros Hl. pose proof (floor_scaled_range k (length l) Hl) as [H0 H1].
  unfold js_index. destruct (Z.ltb_spec (floor_scaled (random k) (length l)) 0);
    [lia |].
  apply nth_In. lia.
Qed.

Lemma bankWord_in (k : nat) : In (bankWord random k) wordBank.
Proof. apply js_index_in. simpl. lia. Qed.

(** The loop stops after at most 50 draws, on the word it drew last, and
    that word is a novel one unless the loop gave up. *)
Lemma drawWord_spec (seen : list string) (attempts k : nat) :
  let '(w, a, k') := drawWord random seen attempts k in
  (attempts < a)%nat ∧ (a <= Nat.max 50 (S attempts))%nat
  ∧ k' = (k + (a - attempts))%nat
  ∧ w = bankWord random (k' - 1)
  ∧ ((a < 50)%nat → includes seen w = false).
Proof.
  funelim (drawWord random seen attempts k).
  - destruct (drawWord random _ (S attempts) (S k)) as [[w a] k'].
    destruct H as (Ha & Hb & Hk & Hw & Hn).
    pose proof (proj2 (andb_prop _ _ e)) as Hlt. apply Nat.ltb_lt in Hlt.
    repeat split; try lia; assumption.
  - repeat split; try lia.
    + f_equal. lia.
    + intros Hlt. destruct (proj1 (andb_false_iff _ _) e) as [e' | e'];
        [exact e' |].
      apply Nat.ltb_ge in e'. lia.
Qed.

Lemma difficulty_range (k : nat) :
  (0 <= toFixed 2 (random k))%Q ∧ (toFixed 2 (random k) <= 1)%Q.
Proof.
  destruct (random_range k) as [H0 H1].
  apply (toFixed_between 2 0 1); [exact H0 | exact H0 |].
  now apply Qlt_le_weak.
Qed.

Lemma time_limit_range (k : nat) :
  (2 <= toFixed 1 (5 - random k * 3))%Q ∧ (toFixed 1 (5 - random k * 3) <= 5)%Q.
Proof.
  destruct (random_range k) as [H0 H1].
  apply (toFixed_between 1 2 5); unfold inject_Z; lra.
Qed.

(** The object that [getNextWord] resolves. *)
Lemma getNextWord_spec (seen : list string) (k : nat) :
  let '(wd, k') := getNextWord random seen k in
  (k < k')%nat ∧ (k' <= k + 52)%nat
  ∧ (In (word wd) seen ∨ In (word wd) wordBank)
  ∧ (0 <= difficulty wd)%Q ∧ (difficulty wd <= 1)%Q
  ∧ (2 <= time_limit wd)%Q ∧ (time_limit wd <= 5)%Q.
Proof.
  unfold getNextWord.
  destruct (0 <? length seen)%nat eqn:Hlen.
  - apply Nat.ltb_lt in Hlen.
    destruct (Qltb (random k) repeatChance).
    + pose proof (difficulty_range (S (S k))) as [Hd0 Hd1].
      pose proof (time_limit_range (S (S k))) as [Ht0 Ht1].
      cbn [word difficulty time_limit].
      repeat split; try lia; try assumption.
      left. now apply js_index_in.
    + pose proof (drawWord_spec seen 0 (S k)) as Hdraw.
      destruct (drawWord random seen 0 (S k)) as [[w a] k1].
      destruct Hdraw as (Ha & Hb & Hk & Hw & _).
      pose proof (difficulty_range k1) as [Hd0 Hd1].
      pose proof (time_limit_range k1) as [Ht0 Ht1].
      cbn [word difficulty time_limit].
      repeat split; try lia; try assumption.
      right. rewrite Hw. apply bankWord_in.
  - pose proof (drawWord_spec seen 0 k) as Hdraw.
    destruct (drawWord random seen 0 k) as [[w a] k1].
    destruct Hdraw as (Ha & Hb & Hk & Hw & _).
    pose proof (difficulty_range k1) as [Hd0 Hd1].
    pose proof (time_limit_range k1) as [Ht0 Ht1].
    cbn [word difficulty time_limit].
    repeat split; try lia; try assumption.
    right. rewrite Hw. apply bankWord_in.
Qed.

End Supplier.

End MockAPIFacts.

(** ** Running statements *)

Section MonadLaws.

Context {A B : Type}.

Lemma run_bind (m : M A) (f : A → M B) (w : World) :
  run (m ≫= f) w = run (f (result m w)) (run m w).
Proof.
  unfold run, result, mbind, M_bind.
  destruct (m w) as [[a w1] l1]. simpl.
  destruct (f a w1) as [[b w2] l2]. reflexivity.
Qed.

Lemma result_bind (m : M A) (f : A → M B) (w : World) :
  result (m ≫= f) w = result (f (result m w)) (run m w).
Proof.
  unfold run, result, mbind, M_bind.
  destruct (m w) as [[a w1] l1]. simpl.
  destruct (f a w1) as [[b w2] l2]. reflexivity.
Qed.

Lemma writes_bind (m : M A) (f : A → M B) (w : World) :
  writes (m ≫= f) w = writes m w ++ writes (f (result m w)) (run m w).
Proof.
  unfold writes, run, result, mbind, M_bind.
  destruct (m w) as [[a w1] l1]. simpl.
  destruct (f a w1) as [[b w2] l2]. reflexivity.
Qed.

Lemma run_ret (a : A) (w : World) : run (mret a) w = w.
Proof. reflexivity. Qed.

Lemma result_ret (a : A) (w : World) : result (mret a) w = a.
Proof. reflexivity. Qed.

Lemma writes_ret (a : A) (w : World) : writes (mret a) w = [].
Proof. reflexivity. Qed.

Lemma run_if (b : bool) (m1 m2 : M A) (w : World) :
  run (if b then m1 else m2) w = if b then run m1 w else run m2 w.
Proof. destruct b; reflexivity. Qed.

Lemma writes_if (b : bool) (m1 m2 : M A) (w : World) :
  writes (if b then m1 else m2) w = if b then writes m1 w else writes m2 w.
Proof. destruct b; reflexivity. Qed.

End MonadLaws.

Lemma run_get (w : World) : run get w = w.
Proof. reflexivity. Qed.

Lemma result_get (w : World) : result get w = w.
Proof. reflexivity. Qed.

Lemma writes_get (w : World) : writes get w = [].
Proof. reflexivity. Qed.

Lemma run_update (f : World → World) (w : World) : run (update f) w = f w.
Proof. reflexivity. Qed.

Lemma writes_update (f : World → World) (w : World) :
  writes (update f) w = [f w].
Proof. reflexivity. Qed.

Create Rewrite HintDb mrun.

#[export] Hint Rewrite @run_bind @result_bind @writes_bind @run_ret
  @result_ret @writes_ret @run_if @writes_if run_get result_get writes_get
  run_update writes_update : mrun.

(** Evaluation of a statement on a world whose fields are known. *)
Ltac mcompute :=
  lazy beta iota zeta delta
    [run result writes mbind M_bind mret M_ret get update fst snd
     log setTimeout setInterval clearInterval newArray newObject newSnapshot
     push set_state set_timerInterval set_isProcessingAnswer set_arrays
     set_objects set_snapshots set_timeouts set_intervals set_nextHandle
     set_draws set_console set_clock set_gameState set_gameMode
     set_currentScore set_lives set_seenWords set_currentWordData
     set_timerValue is_playing seenList currentWord
     state timerInterval isProcessingAnswer arrays objects snapshots
     timeouts intervals nextHandle draws console clock
     authToken gameState gameMode currentScore lives seenWords
     currentWordData timerValue negb andb orb
     GameEngine.stopTimer GameEngine.gameOver GameEngine.resolveSave
     GameEngine.fetchNextWord GameEngine.handleCorrectAnswer
     GameEngine.handleWrongAnswer GameEngine.handleTimerExpiry
     GameEngine.tick GameEngine.startTimer GameEngine.resolveWord
     GameEngine.startGame GameEngine.answerSeen GameEngine.answerNew
     GameEngine.getState GameEngine.setMode
     holderAssign holderPush holderSetWord
     fire task exec reschedule findInterval].

Ltac mcompute_in H :=
  lazy beta iota zeta delta
    [run result writes mbind M_bind mret M_ret get update fst snd
     log setTimeout setInterval clearInterval newArray newObject newSnapshot
     push set_state set_timerInterval set_isProcessingAnswer set_arrays
     set_objects set_snapshots set_timeouts set_intervals set_nextHandle
     set_draws set_console set_clock set_gameState set_gameMode
     set_currentScore set_lives set_seenWords set_currentWordData
     set_timerValue is_playing seenList currentWord
     state timerInterval isProcessingAnswer arrays objects snapshots
     timeouts intervals nextHandle draws console clock
     authToken gameState gameMode currentScore lives seenWords
     currentWordData timerValue negb andb orb
     GameEngine.stopTimer GameEngine.gameOver GameEngine.resolveSave
     GameEngine.fetchNextWord GameEngine.handleCorrectAnswer
     GameEngine.handleWrongAnswer GameEngine.handleTimerExpiry
     GameEngine.tick GameEngine.startTimer GameEngine.resolveWord
     GameEngine.startGame GameEngine.answerSeen GameEngine.answerNew
     GameEngine.getState GameEngine.setMode
     holderAssign holderPush holderSetWord
     fire task exec reschedule findInterval] in H.

Ltac destruct_world w :=
  let at_ := fresh "at_" in let gs := fresh "gs" in let gm := fresh "gm" in
  let sc := fresh "sc" in let lv := fresh "lv" in let sw := fresh "sw" in
  let cw := fresh "cw" in let tv := fresh "tv" in let ti := fresh "ti" in
  let g := fresh "g" in let ar := fresh "ar" in let ob := fresh "ob" in
  let sn := fresh "sn" in let to := fresh "to" in let iv := fresh "iv" in
  let nh := fresh "nh" in let dr := fresh "dr" in let co := fresh "co" in
  let cl := fresh "cl" in
  destruct w as [[at_ gs gm sc lv sw cw tv] ti g ar ob sn to iv nh dr co cl].

Lemma includes_In (l : list string) (x : string) :
  includes l x = true ↔ In x l.
Proof.
  unfold includes. rewrite existsb_exists. split.
  - intros (y & Hy & Heq). apply String.eqb_eq in Heq. now subst.
  - intros Hx. exists x. split; [exact Hx | apply String.eqb_refl].
Qed.

Lemma includes_not_In (l : list string) (x : string) :
  includes l x = false ↔ ¬ In x l.
Proof.
  rewrite <- includes_In. destruct (includes l x); split; congruence.
Qed.

(** ** Answer evaluation *)

Module AnswerFacts.

Import GameEngine.

(** C1 (as stated, it fails).  Not every PLAYING state with an installed
    current word evaluates an answer.  A round is lost at 1600 ms and a new
    one is started at 1610 ms, before the score has been saved; at 1650 ms
    "system" is on display, the phase is PLAYING, [seenWords] is empty and
    the guard [isProcessingAnswer] is set.  NEW is the correct claim and
    SEEN the incorrect one, yet NEW does not raise the score and SEEN does
    not take a life: either call prints "Already processing an answer..."
    and returns. *)
Lemma answer_refused_under_guard :
  let w := worldAfter guardedRound in
  execAllOnTime sampleRandom guardedRound (initial 0) = Some w
  ∧ gameState (state w) = PLAYING
  ∧ isProcessingAnswer w = true
  ∧ currentWord w = "system"
  ∧ seenList w = []
  ∧ ¬ In (currentWord w) (seenList w)
  ∧ currentScore (state (run answerNew w)) ≠ currentScore (state w) + 1
  ∧ lives (state (run answerSeen w)) ≠ lives (state w) - 1
  ∧ run answerNew w
    = set_console (console w ++ [[Lit "Already processing an answer..."]]) w.
Proof.
  vm_compute. repeat split; try discriminate. intros [].
Qed.

(** C1 (amended).  In a PLAYING state in which no answer is being
    processed, the answer is judged by one test, whether the current word
    is in [seenWords] as the array stands before the word is appended:
    when it is, SEEN is the correct claim (the score goes up by one and the
    lives stay) and NEW the incorrect one (the lives go down by one and the
    score stays); when it is not, it is the other way round. *)
Theorem answer_correct_iff_already_seen (w : World) :
  gameState (state w) = PLAYING →
  isProcessingAnswer w = false →
  (In (currentWord w) (seenList w) →
     currentScore (state (run answerSeen w)) = currentScore (state w) + 1
     ∧ lives (state (run answerSeen w)) = lives (state w)
     ∧ currentScore (state (run answerNew w)) = currentScore (state w)
     ∧ lives (state (run answerNew w)) = lives (state w) - 1)
  ∧ (¬ In (currentWord w) (seenList w) →
     currentScore (state (run answerSeen w)) = currentScore (state w)
     ∧ lives (state (run answerSeen w)) = lives (state w) - 1
     ∧ currentScore (state (run answerNew w)) = currentScore (state w) + 1
     ∧ lives (state (run answerNew w)) = lives (state w)).
Proof.
  intros Hp Hg. split; intros Hin.
  - apply includes_In in Hin. destruct_world w.
    mcompute_in Hp. mcompute_in Hg. mcompute_in Hin. subst.
    destruct ti, (lv - 1 <=? 0) eqn:Hlv; mcompute; rewrite Hin; mcompute;
      rewrite ?Hlv; mcompute; repeat split; reflexivity.
  - apply includes_not_In in Hin. destruct_world w.
    mcompute_in Hp. mcompute_in Hg. mcompute_in Hin. subst.
    destruct ti, (lv - 1 <=? 0) eqn:Hlv; mcompute; rewrite Hin; mcompute;
      rewrite ?Hlv; mcompute; repeat split; reflexivity.
Qed.

End AnswerFacts.

(** ** Rejected operations *)

Module RejectionFacts.

Import GameEngine.

(** C9.  An operation attempted in a phase in which it is not legal (an
    answer outside PLAYING, [startGame] or [setMode] during PLAYING,
    [setMode] with a mode that is not easy, medium or hard) prints one line
    on the console and changes nothing else: the world it leaves is the
    world it found, with that line added. *)
Theorem illegal_operation_reported_and_ignored (w : World) (mode : string) :
  (gameState (state w) ≠ PLAYING →
     run answerSeen w =
       set_console
         (console w ++ [[Lit "No game in progress. Call game.startGame() first."]]) w
     ∧ run answerNew w =
       set_console
         (console w ++ [[Lit "No game in progress. Call game.startGame() first."]]) w)
  ∧ (gameState (state w) = PLAYING →
     run startGame w =
       set_console (console w ++ [[Lit "Game already in progress!"]]) w)
  ∧ (gameState (state w) = PLAYING → In mode ["easy"; "medium"; "hard"] →
     run (setMode mode) w =
       set_console
         (console w ++ [[Lit "Cannot change mode during active game."]]) w)
  ∧ (¬ In mode ["easy"; "medium"; "hard"] →
     run (setMode mode) w =
       set_console
         (console w ++ [[Lit "Invalid mode. Use: 'easy', 'medium', or 'hard'"]]) w).
Proof.
  split; [| split; [| split]].
  - intros Hp. destruct_world w. mcompute_in Hp.
    destruct gs; [split; reflexivity | congruence | split; reflexivity].
  - intros Hp. destruct_world w. mcompute_in Hp. subst. reflexivity.
  - intros Hp Hm. apply includes_In in Hm. destruct_world w.
    mcompute_in Hp. subst. mcompute. rewrite Hm. reflexivity.
  - intros Hm. apply includes_not_In in Hm. destruct_world w.
    mcompute. rewrite Hm. reflexivity.
Qed.

End RejectionFacts.

(** ** Invariants *)

Lemma In_delete {A : Type} (l : list A) (n : nat) (p : A) :
  In p (delete n l) → In p l.
Proof.
  revert n; induction l as [|a l IH]; intros [|n]; simpl; auto.
  intros [->|H]; eauto.
Qed.

Lemma In_delete_other {A : Type} (l : list A) (n : nat) (p q : A) :
  l !! n = Some q → In p l → p ≠ q → In p (delete n l).
Proof.
  revert n; induction l as [|a l IH]; intros [|n]; simpl; try easy.
  - intros [= ->] [->|H] Hne; congruence.
  - intros Hq [->|H] Hne; [now left | right; eauto].
Qed.

Lemma tick_value_nonneg (d : Q) (z : Z) :
  (0 <= toFixed 1 (Qmax 0 (d - inject_Z z) / 1000))%Q.
Proof.
  apply toFixed_nonneg. apply Qle_shift_div_l; [reflexivity |].
  rewrite Qmult_0_l. apply Qmax_nonneg.
Qed.

(** Case analysis on an event that happened: every test that the task
    made is decided, and the world that the task left is explicit. *)
Ltac mlist_in H :=
  cbn [List.find List.filter List.map handle startTime duration nextTick
       due callback] in H.

Ltac mlist :=
  cbn [List.find List.filter List.map handle startTime duration nextTick
       due callback].

Ltac split_match H :=
  match type of H with
  | context [match ?x with _ => _ end] =>
      lazymatch x with
      | context [match _ with _ => _ end] => fail
      | _ =>
          let E := fresh "E" in
          destruct x eqn:E; mcompute_in H; mlist_in H;
          rewrite ?Pos.eqb_refl in H
      end
  end.

Ltac exec_inv H :=
  mcompute_in H; mlist_in H; rewrite ?Pos.eqb_refl in H;
  repeat (first [discriminate H | progress split_match H]);
  try discriminate H.

Section Invariants.

Variable random : nat → Q.
Hypothesis random_range : ∀ n, (0 <= random n)%Q ∧ (random n < 1)%Q.

Lemma initial_invariant (t0 : Z) : Invariant (initial t0).
Proof.
  constructor; unfold timerOwned; simpl; try easy; try lia.
Qed.

Ltac solve_save Hs :=
  let p := fresh "p" in
  let Hp := fresh "Hp" in
  let Hsv := fresh "Hsv" in
  intros p Hp Hsv;
  repeat match goal with
    | H : In _ (_ ++ _) |- _ =>
        apply in_app_or in H; destruct H as [H | [<- | []]]
    | H : In _ (delete _ _) |- _ => apply In_delete in H
    end;
  first [ simpl in Hsv; contradiction
        | simpl; lia
        | pose proof (Hs _ Hp Hsv); lia ].

Ltac solve_in :=
  repeat match goal with
    | |- In _ (_ ++ _) => apply in_or_app; left
    | E : ?l !! ?n = Some _ |- In _ (delete ?n ?l) =>
        eapply In_delete_other;
        [ exact E
        |
        | let Heq := fresh in
          intros Heq; subst;
          repeat match goal with
            | Hc : callback _ = _, Hs : isSave _ |- _ => rewrite Hc in Hs
            end;
          simpl in *; contradiction ]
    end;
  assumption.

Ltac solve_guard Hs Hg :=
  let Hgt := fresh "Hgt" in
  intros Hgt;
  first
    [ discriminate Hgt
    | eexists; split;
      [ apply in_or_app; right; left; reflexivity
      | split; [exact I | intros ? []] ]
    | let p := fresh "p" in
      let Hp := fresh "Hp" in
      let Hsv := fresh "Hsv" in
      let Hi := fresh "Hi" in
      destruct (Hg Hgt) as (p & Hp & Hsv & Hi);
      exists p; split; [solve_in | split; [exact Hsv |]];
      first
        [ exact Hi
        | intros ? [];  fail
        | intros ? [<- | []]; simpl;
          first [ specialize (Hi _ (or_introl eq_refl)); simpl in Hi; lia
                | pose proof (Hs _ Hp Hsv); lia ] ] ].

Ltac solve_duration Hd :=
  let i := fresh "i" in
  let Hi := fresh "Hi" in
  intros i Hi;
  first
    [ destruct Hi; fail
    | destruct (Hd i Hi) as (? & ? & ?); repeat split; try assumption; lia
    | destruct Hi as [<- | []];
      destruct (Hd _ (or_introl eq_refl)) as (? & ? & ?);
      simpl in *; repeat split; try assumption; lia ].

(** Every task preserves the invariant. *)
Lemma exec_invariant (t : Z) (e : Event) (w w' : World) :
  Invariant w → exec random t e w = Some w' → Invariant w'.
Proof.
  intros Hinv H. destruct_world w.
  destruct Hinv as [Ho Hob Hd Ht Hs Hg]. unfold timerOwned in Ho.
  mcompute_in Ho; mcompute_in Hob; mcompute_in Hd; mcompute_in Ht;
    mcompute_in Hs; mcompute_in Hg.
  destruct ti as [h0|];
    [ destruct Ho as ([h1 s0 d0 n0] & -> & Hh); simpl in Hh; subst h1
    | subst iv ].
  all: destruct e; exec_inv H; injection H as <-; apply Z.ltb_ge in E.
  all: try match goal with
         | Hw : MockAPI.getNextWord random ?l ?k = _ |- _ =>
             pose proof (MockAPIFacts.getNextWord_spec random random_range l k)
               as Hspec;
             rewrite Hw in Hspec;
             destruct Hspec as (_ & _ & _ & _ & _ & Hlim & _)
         end.
  all: constructor; unfold timerOwned; mcompute; mlist;
    rewrite ?Pos.eqb_refl; mlist.
  all: try assumption.
  all: try reflexivity.
  all: try solve [eexists; split; reflexivity].
  all: try solve [solve_save Hs].
  all: try solve [solve_guard Hs Hg].
  all: try solve [solve_duration Hd].
  all: try apply tick_value_nonneg.
  all: try solve [rewrite length_app; simpl; lia].
  all: try solve [lra].
  all: intros i [<- | []]; simpl; rewrite list_lookup_total_middle by reflexivity;
    repeat split; try lia; lra.
Qed.

(** The invariant holds in every reachable world. *)
Lemma reachable_invariant (w : World) : reachable random w → Invariant w.
Proof.
  induction 1 as [t0 | w t e w' _ IH Hexec].
  - apply initial_invariant.
  - exact (exec_invariant t e w w' IH Hexec).
Qed.

End Invariants.

(** ** The countdown *)

Lemma existsb_false_In {A : Type} (f : A → bool) (l : list A) (x : A) :
  existsb f l = false → In x l → f x = false.
Proof.
  intros Hf Hx. destruct (f x) eqn:E; [| reflexivity].
  assert (existsb f l = true) by (apply existsb_exists; eauto). congruence.
Qed.

Lemma Qmax_div_expired (x : Q) :
  Qle_bool (Qmax 0 x / 1000) 0 = true ↔ (Qmax 0 x / 1000 <= 0)%Q.
Proof. apply Qle_bool_iff. Qed.

Lemma expired_le (x : Q) : (Qmax 0 x / 1000 <= 0)%Q → (x <= 0)%Q.
Proof.
  intros H. assert (Hm : (Qmax 0 x <= 0)%Q).
  { apply Qmult_le_r with (z := (/ 1000)%Q); [reflexivity |].
    rewrite Qmult_0_l. exact H. }
  unfold Qmax in Hm. destruct (Qle_bool 0 x) eqn:E; [exact Hm |].
  apply Qlt_le_weak. apply Qnot_le_lt. intros Hx.
  apply Qle_bool_iff in Hx. congruence.
Qed.

Lemma expired_elapsed (d : Q) (z : Z) :
  (2000 <= d)%Q → (Qmax 0 (d - inject_Z z) / 1000 <= 0)%Q → 2000 <= z.
Proof.
  intros Hd H. apply expired_le in H. rewrite Zle_Qle.
  change (inject_Z 2000) with 2000%Q. lra.
Qed.

Section Countdown.

Variable random : nat → Q.
Hypothesis random_range : ∀ n, (0 <= random n)%Q ∧ (random n < 1)%Q.

(** Presenting a word arms one countdown: it starts at the clock of the
    presentation, lasts the time limit of the word, in milliseconds, and is
    the only interval alive. *)
Lemma presentation_arms_countdown (w : World) (seen : loc) :
  timerOwned w →
  let w' := run (GameEngine.resolveWord random seen) w in
  let wd := objects w' !!! currentWordData (state w') in
  wd = fst (MockAPI.getNextWord random (arrays w !!! seen) (draws w))
  ∧ timerValue (state w') = time_limit wd
  ∧ timerInterval w' = Some (nextHandle w)
  ∧ intervals w' =
      [mkInterval (nextHandle w) (clock w) (time_limit wd * 1000)
         (clock w + 100)].
Proof.
  intros Ho. destruct_world w. unfold timerOwned in Ho. mcompute_in Ho.
  cbv zeta. mcompute.
  destruct (MockAPI.getNextWord random (ar !!! seen) dr) as [wd k].
  destruct ti as [h0|];
    [ destruct Ho as ([h1 s0 d0 n0] & -> & Hh); simpl in Hh; subst h1
    | subst iv ];
    mcompute; mlist; rewrite ?Pos.eqb_refl; mlist;
    rewrite list_lookup_total_middle by reflexivity; repeat split.
Qed.

Lemma remaining_nonneg (x : Q) : (0 <= Qmax 0 x / 1000)%Q.
Proof.
  apply Qle_shift_div_l; [reflexivity |]. rewrite Qmult_0_l.
  apply Qmax_nonneg.
Qed.

Lemma within_a_tenth (r v : Q) :
  (r - (1 # 20) <= v)%Q → (v <= r + (1 # 20))%Q →
  (r - (1 # 10) < v)%Q ∧ (v < r + (1 # 10))%Q.
Proof. intros. split; lra. Qed.

(** The value that a tick writes is computed from the clock and from the
    start and the duration that the countdown was armed with. *)
Lemma exec_tick_timerValue
    (w w' : World) (t : Z) (h : positive) (i : Interval) :
  findInterval h w = Some i →
  exec random t (Tick h) w = Some w' →
  timerValue (state w')
  = toFixed 1 (Qmax 0 (duration i - inject_Z (t - startTime i)) / 1000).
Proof.
  intros Hfind H. destruct_world w. mcompute_in Hfind.
  exec_inv H; injection H as <-; injection Hfind as <-; reflexivity.
Qed.

(** C7.  Every tick of a live countdown recomputes the remaining time as
    the time limit of the word on display minus the time elapsed on the
    clock since the countdown was armed, cut at zero.  The value it writes
    into [timerValue] is this remaining time, less than a tenth of a
    second away (the value is rounded for display); it does not depend on
    the value that was there, and it is never negative, before the tick or
    after it.  While time remains, the tick does nothing else.  The first
    tick that finds no time left, with no answer being processed, runs the
    timeout transition (one life is lost) and leaves no countdown alive: no
    tick of it can follow, so the transition runs once.  A tick that finds
    no time left while an answer is being processed writes the value and
    returns, and the countdown stays alive; in a reachable world this needs
    a [saveScore] callback that is overdue, so with callbacks run when they
    are due the guard is unset whenever time runs out.  The world is any
    reachable one, and the tick may be late. *)
Theorem countdown_recomputed_and_fires_once
    (w w' : World) (t : Z) (h : positive) (i : Interval) :
  reachable random w →
  findInterval h w = Some i →
  exec random t (Tick h) w = Some w' →
  let limit := time_limit (objects w !!! currentWordData (state w)) in
  let remaining :=
    (Qmax 0 (limit * 1000 - inject_Z (t - startTime i)) / 1000)%Q in
  (0 <= timerValue (state w))%Q
  ∧ (0 <= timerValue (state w'))%Q
  ∧ (remaining - (1 # 10) < timerValue (state w'))%Q
  ∧ (timerValue (state w') < remaining + (1 # 10))%Q
  ∧ (∀ v v',
       exec random t (Tick h) (set_state (set_timerValue v (state w)) w)
       = Some v' →
       timerValue (state v') = timerValue (state w'))
  ∧ ((0 < remaining)%Q →
       lives (state w') = lives (state w)
       ∧ currentScore (state w') = currentScore (state w)
       ∧ gameState (state w') = gameState (state w)
       ∧ seenList w' = seenList w
       ∧ timerInterval w' = Some h
       ∧ findInterval h w' ≠ None)
  ∧ ((remaining <= 0)%Q → isProcessingAnswer w = false →
       lives (state w') = lives (state w) - 1
       ∧ currentScore (state w') = currentScore (state w)
       ∧ timerInterval w' = None
       ∧ intervals w' = []
       ∧ ∀ t', exec random t' (Tick h) w' = None)
  ∧ ((remaining <= 0)%Q → isProcessingAnswer w = true →
       lives (state w') = lives (state w)
       ∧ currentScore (state w') = currentScore (state w)
       ∧ gameState (state w') = gameState (state w)
       ∧ seenList w' = seenList w
       ∧ timerInterval w' = Some h
       ∧ findInterval h w' ≠ None)
  ∧ ((remaining <= 0)%Q → timeoutOverdue t w = false →
       isProcessingAnswer w = false).
Proof.
  intros Hreach Hfind H.
  pose proof (reachable_invariant random random_range w Hreach) as Hinv.
  pose proof (exec_tick_timerValue w w' t h i Hfind H) as Hval.
  assert (Hfree : ∀ v v',
            exec random t (Tick h) (set_state (set_timerValue v (state w)) w)
            = Some v' →
            timerValue (state v') = timerValue (state w')).
  { intros v v' Hv. rewrite Hval.
    apply (exec_tick_timerValue
             (set_state (set_timerValue v (state w)) w) v' t h i);
      [| exact Hv].
    destruct_world w. exact Hfind. }
  destruct_world w.
  destruct Hinv as [Ho Hob Hd Ht Hs Hg]. unfold timerOwned in Ho.
  mcompute_in Ho; mcompute_in Hob; mcompute_in Hd; mcompute_in Ht;
    mcompute_in Hs; mcompute_in Hg.
  mcompute_in Hfind.
  destruct ti as [h0|];
    [ destruct Ho as ([h1 s0 d0 n0] & -> & Hh); simpl in Hh; subst h1
    | subst iv; discriminate Hfind ].
  mlist_in Hfind.
  destruct (Pos.eqb_spec h0 h) as [-> | Hne]; [| discriminate Hfind].
  injection Hfind as <-.
  destruct (Hd _ (or_introl eq_refl)) as (Hdur & Hlong & Hstart).
  cbn [duration startTime] in Hdur, Hlong, Hstart, Hval.
  cbv zeta. cbn [state objects currentWordData startTime]. rewrite <- Hdur.
  destruct (toFixed1_error _ (remaining_nonneg (d0 - inject_Z (t - s0))))
    as [Hlo Hhi].
  destruct (within_a_tenth _ _ Hlo Hhi) as [Hlo' Hhi'].
  split; [exact Ht |].
  split; [rewrite Hval; apply tick_value_nonneg |].
  split; [rewrite Hval; exact Hlo' |].
  split; [rewrite Hval; exact Hhi' |].
  split; [exact Hfree |].
  clear Hval Hfree Hlo Hhi Hlo' Hhi'.
  unfold timeoutOverdue. mcompute.
  exec_inv H; injection H as <-; mcompute; mlist.
  all: try (apply Qle_bool_iff in E1).
  all: try (assert (Hpos : ¬ (Qmax 0 (d0 - inject_Z (t - s0)) / 1000 <= 0)%Q)
              by (intros Hc; apply Qle_bool_iff in Hc; congruence)).
  - (* no time left, an answer is being processed *)
    split; [| split; [| split]].
    + intros Hc. exfalso. apply (Qlt_not_le _ _ Hc). exact E1.
    + intros _ Hc. discriminate Hc.
    + intros _ _. rewrite Pos.eqb_refl. repeat split. discriminate.
    + intros _ Hon. exfalso. destruct (Hg eq_refl) as (p & Hp & Hsv & Hi).
      specialize (Hi _ (or_introl eq_refl)). cbn [startTime] in Hi.
      pose proof (existsb_false_In _ _ _ Hon Hp) as Hdue.
      apply Z.ltb_ge in Hdue.
      pose proof (expired_elapsed _ _ Hlong E1). lia.
  - (* no time left, the last life is lost *)
    split; [| split; [| split]].
    + intros Hc. exfalso. apply (Qlt_not_le _ _ Hc). exact E1.
    + intros _ _. repeat split. intros t'. destruct (t' <? t); reflexivity.
    + intros _ Hc. discriminate Hc.
    + intros _ _. reflexivity.
  - (* no time left, lives remain *)
    split; [| split; [| split]].
    + intros Hc. exfalso. apply (Qlt_not_le _ _ Hc). exact E1.
    + intros _ _. repeat split. intros t'. destruct (t' <? t); reflexivity.
    + intros _ Hc. discriminate Hc.
    + intros _ _. reflexivity.
  - (* time remains *)
    split; [| split; [| split]].
    + intros _. rewrite Pos.eqb_refl. repeat split. discriminate.
    + intros Hc. contradiction.
    + intros Hc. contradiction.
    + intros Hc. contradiction.
Qed.

End Countdown.

(** ** The score *)

Section Score.

Variable random : nat → Q.

(** What one task does to the score. *)
Lemma exec_score (t : Z) (e : Event) (w w' : World) :
  exec random t e w = Some w' →
  currentScore (state w') =
    if startsRound e w then 0
    else if correctAnswer e w then currentScore (state w) + 1
    else currentScore (state w).
Proof.
  intros H. destruct_world w.
  destruct e; exec_inv H; injection H as <-;
    unfold startsRound, correctAnswer, evaluated; mcompute;
    repeat match goal with
      | E : ?x = _ |- context [?x] => rewrite E
      end;
    reflexivity.
Qed.

Lemma score_tally (es : list (Z * Event)) (w w' : World) (n : nat) :
  currentScore (state w) = Z.of_nat n →
  execAll random es w = Some w' →
  currentScore (state w') = Z.of_nat (correctSinceStart random es w n).
Proof.
  revert w n. induction es as [| [t e] es IH]; intros w n Hn Hrun.
  - simpl in *. injection Hrun as <-. exact Hn.
  - simpl in *. destruct (exec random t e w) as [w1 |] eqn:Hexec;
      [| discriminate].
    apply (IH w1); [| exact Hrun].
    rewrite (exec_score t e w w1 Hexec).
    destruct (startsRound e w); [reflexivity |].
    destruct (correctAnswer e w); lia.
Qed.

(** C6.  A [startGame] that is not rejected leaves the score at 0, the
    lives at 3, [seenWords] empty and the phase PLAYING; after any run of
    events from there the score is the number of correct answers since the
    last start of a round; and a task that is neither a start nor a correct
    answer, such as an incorrect answer or a timeout, leaves the score as it
    was. *)
Theorem score_counts_correct_answers
    (w0 w1 w' : World) (t : Z) (es : list (Z * Event)) :
  gameState (state w0) ≠ PLAYING →
  exec random t StartGame w0 = Some w1 →
  execAll random es w1 = Some w' →
  (currentScore (state w1) = 0 ∧ lives (state w1) = 3
   ∧ seenList w1 = [] ∧ gameState (state w1) = PLAYING)
  ∧ currentScore (state w') = Z.of_nat (correctSinceStart random es w1 0)
  ∧ (∀ t' e v v', exec random t' e v = Some v' →
       startsRound e v = false → correctAnswer e v = false →
       currentScore (state v') = currentScore (state v)).
Proof.
  intros Hp Hstart Hrun.
  assert (Hw1 : currentScore (state w1) = 0 ∧ lives (state w1) = 3
                ∧ seenList w1 = [] ∧ gameState (state w1) = PLAYING).
  { destruct_world w0. mcompute_in Hp.
    exec_inv Hstart; try congruence; injection Hstart as <-; mcompute;
      rewrite list_lookup_total_middle by reflexivity; repeat split. }
  split; [exact Hw1 | split].
  - apply score_tally; [| exact Hrun]. now destruct Hw1 as [-> _].
  - intros t' e v v' Hexec Hs Hc.
    rewrite (exec_score t' e v v' Hexec), Hs, Hc. reflexivity.
Qed.

End Score.

(** ** Runs *)

Section Runs.

Variable random : nat → Q.

Lemma execOnTime_exec (t : Z) (e : Event) (w w' : World) :
  execOnTime random t e w = Some w' → exec random t e w = Some w'.
Proof. unfold execOnTime. destruct (overdue t w); [discriminate | auto]. Qed.

Lemma execAllOnTime_execAll (es : list (Z * Event)) (w w' : World) :
  execAllOnTime random es w = Some w' → execAll random es w = Some w'.
Proof.
  revert w. induction es as [| [t e] es IH]; intros w H; [exact H |].
  simpl in *. destruct (execOnTime random t e w) as [w1 |] eqn:E;
    [| discriminate].
  rewrite (execOnTime_exec _ _ _ _ E). auto.
Qed.

Lemma execAll_reachable (es : list (Z * Event)) (w w' : World) :
  reachable random w → execAll random es w = Some w' → reachable random w'.
Proof.
  revert w. induction es as [| [t e] es IH]; intros w Hw H.
  - injection H as <-. exact Hw.
  - simpl in H. destruct (exec random t e w) as [w1 |] eqn:E; [| discriminate].
    apply (IH w1); [| exact H]. exact (reachable_step random w t e w1 Hw E).
Qed.

Lemma execAllOnTime_reachable (es : list (Z * Event)) (w' : World) :
  execAllOnTime random es (initial 0) = Some w' → reachable random w'.
Proof.
  intros H. apply (execAll_reachable es (initial 0)).
  - apply reachable_initial.
  - now apply execAllOnTime_execAll.
Qed.

End Runs.

(** ** One resolution for each presented word *)

Module ResolutionFacts.

Import GameEngine.

(** While an answer is being processed, an answer is reported and changes
    nothing, and an expiry of the countdown does nothing at all. *)
Lemma ignored_while_processing (w : World) :
  gameState (state w) = PLAYING →
  isProcessingAnswer w = true →
  run answerSeen w =
    set_console (console w ++ [[Lit "Already processing an answer..."]]) w
  ∧ run answerNew w =
    set_console (console w ++ [[Lit "Already processing an answer..."]]) w
  ∧ run handleTimerExpiry w = w.
Proof.
  intros Hp Hg. destruct_world w. mcompute_in Hp. mcompute_in Hg. subst.
  repeat split.
Qed.

(** An answer that is evaluated leaves no countdown alive: no tick, and so
    no expiry, can follow it before a countdown is armed again. *)
Lemma answer_disarms_countdown (w : World) (m : M unit) :
  m = answerSeen ∨ m = answerNew →
  timerOwned w →
  gameState (state w) = PLAYING →
  isProcessingAnswer w = false →
  timerInterval (run m w) = None ∧ intervals (run m w) = [].
Proof.
  intros Hm Ho Hp Hg. destruct_world w. unfold timerOwned in Ho.
  mcompute_in Ho. mcompute_in Hp. mcompute_in Hg. subst.
  destruct ti as [h0|];
    [ destruct Ho as ([h1 s0 d0 n0] & -> & Hh); simpl in Hh; subst h1
    | subst iv ].
  all: destruct Hm as [-> | ->].
  all: destruct (includes (ar !!! sw) (word (ob !!! cw))) eqn:Hin,
         (lv - 1 <=? 0) eqn:Hlv;
    mcompute; rewrite Hin; mcompute; rewrite ?Hlv; mcompute; mlist;
    rewrite ?Pos.eqb_refl; split; reflexivity.
Qed.

(** An answer that is evaluated and does not end the round leaves the
    guard unset, the phase PLAYING and the current word in place: the next
    answer finds the engine as ready to evaluate as the first one did. *)
Lemma answer_leaves_guard_unset (w : World) (m : M unit) :
  m = answerSeen ∨ m = answerNew →
  gameState (state w) = PLAYING →
  isProcessingAnswer w = false →
  gameState (state (run m w)) = PLAYING →
  isProcessingAnswer (run m w) = false
  ∧ currentWordData (state (run m w)) = currentWordData (state w)
  ∧ objects (run m w) = objects w.
Proof.
  intros Hm Hp Hg. destruct_world w. mcompute_in Hp. mcompute_in Hg. subst.
  destruct Hm as [-> | ->].
  all: destruct ti, (includes (ar !!! sw) (word (ob !!! cw))) eqn:Hin,
         (lv - 1 <=? 0) eqn:Hlv;
    mcompute; rewrite Hin; mcompute; rewrite ?Hlv; mcompute;
    intros Hq; try discriminate Hq; repeat split.
Qed.

(** C2 (the code departs from it).  A second answer given after the first
    one and before the next word is presented is evaluated again: on the
    one presentation of "apple" the answer NEW at 1050 ms scores a point
    and appends the word, and the answer SEEN at 1300 ms, on the same word
    (the next one is not fetched before 1550 ms), scores another point and
    appends the word again. *)
Theorem second_answer_before_next_word_is_evaluated :
  let w1 := worldAfter presented in
  let w2 := worldAfter (presented ++ [(1050, AnswerNew)]) in
  let w3 := worldAfter doubleAnswer in
  execAllOnTime sampleRandom presented (initial 0) = Some w1
  ∧ execOnTime sampleRandom 1050 AnswerNew w1 = Some w2
  ∧ execOnTime sampleRandom 1300 AnswerSeen w2 = Some w3
  ∧ (currentWord w1 = "apple" ∧ seenList w1 = []
     ∧ currentScore (state w1) = 0 ∧ isProcessingAnswer w1 = false)
  ∧ (currentScore (state w2) = 1 ∧ seenList w2 = ["apple"]
     ∧ isProcessingAnswer w2 = false
     ∧ timeouts w2 = [mkTimeout 1550 FetchNextWord])
  ∧ (currentWordData (state w3) = currentWordData (state w1)
     ∧ currentScore (state w3) = 2 ∧ seenList w3 = ["apple"; "apple"]).
Proof. vm_compute. repeat split. Qed.

(** Every resolution appends the current word once, at the end of
    [seenWords], after the membership test has been made on the array as
    it was. *)
Lemma resolution_appends_once (w : World) :
  (seenWords (state w) < length (arrays w))%nat →
  isProcessingAnswer w = false →
  (gameState (state w) = PLAYING →
     seenList (run answerSeen w) = seenList w ++ [currentWord w]
     ∧ seenList (run answerNew w) = seenList w ++ [currentWord w])
  ∧ seenList (run handleTimerExpiry w) = seenList w ++ [currentWord w].
Proof.
  intros Hsw Hg. destruct_world w. mcompute_in Hsw. mcompute_in Hg. subst.
  assert (Hpush : ∀ x, alter (λ a : list string, a ++ [x]) sw ar !!! sw
                       = ar !!! sw ++ [x]).
  { intros x. rewrite list_lookup_total_alter.
    rewrite decide_True by (split; [reflexivity | exact Hsw]).
    reflexivity. }
  split.
  - intros Hp. mcompute_in Hp. subst.
    destruct ti, (includes (ar !!! sw) (word (ob !!! cw))) eqn:Hin,
      (lv - 1 <=? 0) eqn:Hlv;
      mcompute; rewrite Hin; mcompute; rewrite ?Hlv; mcompute;
      split; apply Hpush.
  - destruct ti, (lv - 1 <=? 0) eqn:Hlv; mcompute; rewrite ?Hlv; mcompute;
      apply Hpush.
Qed.

(** Presenting a word leaves every array as it was, and [seenWords] with
    it. *)
Lemma presentation_keeps_seenWords (random : nat → Q) (w : World) (seen : loc) :
  arrays (run (resolveWord random seen) w) = arrays w
  ∧ seenWords (state (run (resolveWord random seen) w)) = seenWords (state w).
Proof.
  destruct_world w. mcompute.
  destruct (MockAPI.getNextWord random (ar !!! seen) dr) as [wd k].
  destruct ti; mcompute; split; reflexivity.
Qed.

(** C3 (the code departs from it).  The word of one presentation is
    appended twice: in the run in which SEEN follows NEW before the next
    word is fetched, "apple" is the only word that was ever installed as
    current word, it was installed once, and [seenWords] holds it twice. *)
Theorem presented_word_appended_twice :
  let w := worldAfter doubleAnswer in
  execAllOnTime sampleRandom doubleAnswer (initial 0) = Some w
  ∧ List.map word (objects w) = [""; "apple"]
  ∧ count_occ string_dec (seenList w) "apple" = 2%nat
  ∧ seenList w = ["apple"; "apple"].
Proof. vm_compute. repeat split. Qed.

End ResolutionFacts.

(** ** Lives *)

Module LivesFacts.

Import GameEngine.

(** A resolution in a PLAYING state with lives left takes at most one life
    and ends the round exactly when none is left. *)
Lemma resolution_keeps_lives_in_range (w : World) :
  gameState (state w) = PLAYING →
  isProcessingAnswer w = false →
  1 <= lives (state w) <= 3 →
  ∀ m, m = answerSeen ∨ m = answerNew ∨ m = handleTimerExpiry →
  0 <= lives (state (run m w)) <= 3
  ∧ (lives (state (run m w)) = 0 → gameState (state (run m w)) = GAME_OVER)
  ∧ (0 < lives (state (run m w)) → gameState (state (run m w)) = PLAYING).
Proof.
  intros Hp Hg Hl m Hm. destruct_world w.
  mcompute_in Hp. mcompute_in Hg. mcompute_in Hl. subst.
  destruct Hm as [-> | [-> | ->]].
  all: destruct ti, (includes (ar !!! sw) (word (ob !!! cw))) eqn:Hin,
         (Z.leb_spec (lv - 1) 0) as [Hlv | Hlv];
    mcompute; rewrite ?Hin; mcompute;
    try (rewrite (proj2 (Z.leb_le _ _) Hlv));
    try (rewrite (proj2 (Z.leb_gt _ _) Hlv));
    mcompute; repeat split; try lia; try reflexivity; intros; lia.
Qed.

(** C4 (the code departs from it).  The lives go below zero: the third
    incorrect answer comes at 1600 ms, while the word requested at 1550 ms
    is being fetched, and ends the round; the word arrives at 1650 ms, in
    GAME_OVER, and its countdown is armed; when the countdown runs out, at
    5250 ms, the timeout takes a life from a round that has none left. *)
Theorem lives_negative_after_stale_countdown :
  let lost := worldAfter gameLost in
  let armed := worldAfter (gameLost ++ [(1650, Fire 1%nat)]) in
  let w := worldAfter staleCountdown in
  execAllOnTime sampleRandom staleCountdown (initial 0) = Some w
  ∧ reachable sampleRandom w
  ∧ (gameState (state lost) = GAME_OVER ∧ lives (state lost) = 0
     ∧ List.map callback (timeouts lost)
       = [FetchNextWord; ResolveWord 1%nat; ResolveSave 0 "medium"])
  ∧ (gameState (state armed) = GAME_OVER ∧ lives (state armed) = 0
     ∧ timerInterval armed = Some 2%positive)
  ∧ (gameState (state w) = GAME_OVER ∧ lives (state w) = -1).
Proof.
  split; [vm_compute; reflexivity | split].
  - apply (execAllOnTime_reachable sampleRandom staleCountdown).
    vm_compute. reflexivity.
  - vm_compute. repeat split.
Qed.

End LivesFacts.

(** ** The reentrancy guard *)

Module GuardFacts.

Import GameEngine.

(** An answer that is evaluated sets the guard with its first write, and
    every world it writes with the guard cleared already has the final
    score, lives and [seenWords]. *)
Lemma answer_commits_under_guard (w : World) (m : M unit) :
  m = answerSeen ∨ m = answerNew →
  gameState (state w) = PLAYING →
  isProcessingAnswer w = false →
  (∃ rest, writes m w = set_isProcessingAnswer true w :: rest)
  ∧ ∀ w', In w' (writes m w) → isProcessingAnswer w' = false →
      currentScore (state w') = currentScore (state (run m w))
      ∧ lives (state w') = lives (state (run m w))
      ∧ seenList w' = seenList (run m w).
Proof.
  intros Hm Hp Hg. destruct_world w. mcompute_in Hp. mcompute_in Hg. subst.
  destruct Hm as [-> | ->].
  all: destruct ti, (includes (ar !!! sw) (word (ob !!! cw))) eqn:Hin,
         (lv - 1 <=? 0) eqn:Hlv;
    mcompute; rewrite Hin; mcompute; rewrite ?Hlv; mcompute;
    (split; [eexists; reflexivity |]);
    intros w' Hw' Hg'; cbn [In app] in Hw';
    repeat (destruct Hw' as [<- | Hw']; [try discriminate Hg'; mcompute; repeat split |]);
    destruct Hw'.
Qed.

(** C5 (the code departs from it).  The evaluation of a timeout never sets
    the guard: every world written by a tick of the countdown, and so by
    the timeout transition it runs, has the guard as the tick found it.
    When the countdown of "apple" runs out at 4000 ms, the guard is unset
    in the world in which the life has been taken and the word has not yet
    been appended. *)
Theorem timeout_evaluation_never_sets_guard :
  (∀ w start dur,
     Forall (λ w', isProcessingAnswer w' = isProcessingAnswer w)
       (writes (tick start dur) w))
  ∧ (let w := set_clock 4000 (worldAfter beforeExpiry) in
     isProcessingAnswer w = false
     ∧ ∃ w', In w' (writes (tick 100 3900) w)
        ∧ isProcessingAnswer w' = false
        ∧ lives (state w') = lives (state w) - 1
        ∧ seenList w' = seenList w
        ∧ seenList (run (tick 100 3900) w) = seenList w ++ [currentWord w]).
Proof.
  split.
  - intros w start dur. destruct_world w.
    destruct (Qle_bool (Qmax 0 (dur - inject_Z (cl - start)) / 1000) 0) eqn:Hq,
      g, ti, (lv - 1 <=? 0) eqn:Hlv;
      mcompute; rewrite Hq; mcompute; rewrite ?Hlv; mcompute;
      cbn [app]; repeat constructor.
  - split; [reflexivity |].
    eexists. split; [| split; [| split; [| split]]].
    + vm_compute. do 5 right. left. reflexivity.
    + reflexivity.
    + reflexivity.
    + reflexivity.
    + vm_compute. reflexivity.
Qed.

End GuardFacts.

(** ** The object returned by getState *)

Module SnapshotFacts.

Import GameEngine.

(** C8 (as stated, it fails).  The object returned by [getState] is not
    isolated from the engine.  With "apple" on display: an answer given
    after the call shows in the [seenWords] of the object returned before
    it; a [push] on the [seenWords] of the returned object changes the
    [seenWords] of the engine; and an assignment to the [word] of its
    [currentWordData] changes the current word of the engine. *)
Lemma snapshot_shares_array_and_word :
  let w := worldAfter presented in
  let l := result getState w in
  let w1 := run getState w in
  snapshotSeen (run answerNew w1) l ≠ snapshotSeen w1 l
  ∧ engineView (run (holderPush l "pear") w1) ≠ engineView w1
  ∧ engineView (run (holderSetWord l "pear") w1) ≠ engineView w1
  ∧ snapshotSeen w1 l = [] ∧ snapshotSeen (run answerNew w1) l = ["apple"]
  ∧ seenList w1 = [] ∧ seenList (run (holderPush l "pear") w1) = ["pear"]
  ∧ currentWord w1 = "apple"
  ∧ currentWord (run (holderSetWord l "pear") w1) = "pear".
Proof.
  vm_compute. repeat split; discriminate.
Qed.

Lemma exec_snapshots (random : nat → Q) (t : Z) (e : Event) (w w' : World)
    (l : loc) :
  (l < length (snapshots w))%nat →
  exec random t e w = Some w' →
  snapshots w' !! l = snapshots w !! l.
Proof.
  intros Hl H. destruct_world w. mcompute_in Hl.
  destruct e; exec_inv H; injection H as <-; mcompute;
    try reflexivity.
  apply lookup_app_l. exact Hl.
Qed.

(** C8 (amended).  [getState] returns a shallow copy.  The call allocates a
    new object that holds the fields of the state and changes nothing of
    the engine; no task of the engine writes to an object returned earlier,
    and an assignment to a field of a returned object does not reach the
    engine.  But the [seenWords] and [currentWordData] of the returned
    object are the references that the engine holds: an element pushed
    through the returned object is appended to the [seenWords] of the
    engine, an element pushed by the engine shows in the returned object,
    and a word assigned through the returned object becomes the current
    word of the engine. *)
Theorem getState_is_shallow_copy (random : nat → Q) (w : World) :
  let l := result getState w in
  let w1 := run getState w in
  (snapshots w1 !! l = Some (state w) ∧ engineView w1 = engineView w)
  ∧ (∀ t e w2 l', (l' < length (snapshots w))%nat →
       exec random t e w = Some w2 → snapshots w2 !! l' = snapshots w !! l')
  ∧ (∀ l' f, engineView (run (holderAssign l' f) w) = engineView w)
  ∧ (seenWords (snapshots w1 !!! l) = seenWords (state w1)
     ∧ currentWordData (snapshots w1 !!! l) = currentWordData (state w1))
  ∧ ((seenWords (state w) < length (arrays w))%nat →
       ∀ x, seenList (run (holderPush l x) w1) = seenList w ++ [x]
            ∧ snapshotSeen (run (push (seenWords (state w1)) x) w1) l
              = snapshotSeen w1 l ++ [x])
  ∧ ((currentWordData (state w) < length (objects w))%nat →
       ∀ x, currentWord (run (holderSetWord l x) w1) = x).
Proof.
  cbv zeta. split; [| split; [| split; [| split; [| split]]]].
  - destruct_world w. mcompute. split; [| reflexivity].
    apply list_lookup_middle. reflexivity.
  - intros t e w2 l' Hl H. exact (exec_snapshots random t e w w2 l' Hl H).
  - intros l' f. destruct_world w. reflexivity.
  - destruct_world w. mcompute.
    rewrite list_lookup_total_middle by reflexivity. split; reflexivity.
  - intros Hsw x. destruct_world w. mcompute_in Hsw. unfold snapshotSeen.
    mcompute. rewrite list_lookup_total_middle by reflexivity. cbn [seenWords].
    rewrite list_lookup_total_alter.
    rewrite decide_True by (split; [reflexivity | exact Hsw]).
    split; reflexivity.
  - intros Hcw x. destruct_world w. mcompute_in Hcw. mcompute.
    rewrite list_lookup_total_middle by reflexivity. cbn [currentWordData].
    rewrite list_lookup_total_alter.
    rewrite decide_True by (split; [reflexivity | exact Hcw]).
    reflexivity.
Qed.

End SnapshotFacts.

(** ** The supplier's contract *)

Module SupplierContract.

Import MockAPI.

(** C10.  [getNextWord] returns on every array of seen words: its search
    for a novel word makes at least one and at most 50 draws from the bank
    and stops on the word it drew last, which is novel unless the search
    gave up at the 50th draw; the whole call consumes at most 52 draws; and
    the object it resolves has a difficulty between 0 and 1 and a time limit
    above 0.  The draws are numbers from 0 up to, not including, 1, as
    [Math.random] returns them. *)
Theorem getNextWord_bounded_and_in_range
    (random : nat → Q) (seenWords : list string) (k : nat) :
  (∀ n, (0 <= random n)%Q ∧ (random n < 1)%Q) →
  (let '(w, attempts, k') := drawWord random seenWords 0 k in
   (1 <= attempts <= 50)%nat
   ∧ k' = (k + attempts)%nat
   ∧ w = bankWord random (k' - 1)
   ∧ ((attempts < 50)%nat → ¬ In w seenWords))
  ∧ (let '(wd, k') := getNextWord random seenWords k in
     (k < k' <= k + 52)%nat
     ∧ (In (word wd) seenWords ∨ In (word wd) wordBank)
     ∧ (0 <= difficulty wd)%Q ∧ (difficulty wd <= 1)%Q
     ∧ (0 < time_limit wd)%Q).
Proof.
  intros Hr. split.
  - pose proof (MockAPIFacts.drawWord_spec random seenWords 0 k) as H.
    destruct (drawWord random seenWords 0 k) as [[w a] k'].
    destruct H as (Ha & Hb & Hk & Hw & Hn).
    repeat split; try lia; try assumption.
    intros Hlt. apply includes_not_In. auto.
  - pose proof (MockAPIFacts.getNextWord_spec random Hr seenWords k) as H.
    destruct (getNextWord random seenWords k) as [wd k'].
    destruct H as (H1 & H2 & H3 & H4 & H5 & H6 & H7).
    repeat split; try lia; try assumption.
    apply Qlt_le_trans with (y := 2%Q); [reflexivity | exact H6].
Qed.

End SupplierContract.

(** ** Instances *)

Lemma sampleRandom_range (n : nat) :
  (0 <= sampleRandom n)%Q ∧ (sampleRandom n < 1)%Q.
Proof.
  unfold sampleRandom, Qle, Qlt. cbn [Qnum Qden].
  pose proof (Nat.mod_upper_bound (n * 37) 100). lia.
Qed.

(** The theorem of C1 on the world in which "apple" is on display and has
    not been seen: NEW scores and SEEN costs a life. *)
Lemma answer_correct_iff_already_seen_witness :
  gameState (state (worldAfter presented)) = PLAYING
  ∧ isProcessingAnswer (worldAfter presented) = false
  ∧ ¬ In (currentWord (worldAfter presented)) (seenList (worldAfter presented))
  ∧ currentScore (state (run GameEngine.answerNew (worldAfter presented)))
    = currentScore (state (worldAfter presented)) + 1
  ∧ lives (state (run GameEngine.answerSeen (worldAfter presented)))
    = lives (state (worldAfter presented)) - 1.
Proof.
  assert (H1 : gameState (state (worldAfter presented)) = PLAYING)
    by (vm_compute; reflexivity).
  assert (H2 : isProcessingAnswer (worldAfter presented) = false)
    by (vm_compute; reflexivity).
  assert (Hnew : ¬ In (currentWord (worldAfter presented))
                     (seenList (worldAfter presented)))
    by (vm_compute; tauto).
  split; [exact H1 | split; [exact H2 | split; [exact Hnew |]]].
  destruct (AnswerFacts.answer_correct_iff_already_seen
              (worldAfter presented) H1 H2) as [_ H].
  destruct (H Hnew) as (_ & Hlives & Hscore & _).
  split; [exact Hscore | exact Hlives].
Defined.

(** The theorem of C9 on the initial world (phase MENU) and on the world in
    which "apple" is on display (phase PLAYING). *)
Lemma illegal_operation_reported_and_ignored_witness :
  gameState (state (initial 0)) ≠ PLAYING
  ∧ gameState (state (worldAfter presented)) = PLAYING
  ∧ In "hard" ["easy"; "medium"; "hard"]
  ∧ ¬ In "extreme" ["easy"; "medium"; "hard"]
  ∧ run GameEngine.answerSeen (initial 0)
    = set_console
        (console (initial 0)
         ++ [[Lit "No game in progress. Call game.startGame() first."]])
        (initial 0)
  ∧ run GameEngine.startGame (worldAfter presented)
    = set_console
        (console (worldAfter presented) ++ [[Lit "Game already in progress!"]])
        (worldAfter presented)
  ∧ run (GameEngine.setMode "hard") (worldAfter presented)
    = set_console
        (console (worldAfter presented)
         ++ [[Lit "Cannot change mode during active game."]])
        (worldAfter presented)
  ∧ run (GameEngine.setMode "extreme") (initial 0)
    = set_console
        (console (initial 0)
         ++ [[Lit "Invalid mode. Use: 'easy', 'medium', or 'hard'"]])
        (initial 0).
Proof.
  assert (H1 : gameState (state (initial 0)) ≠ PLAYING) by discriminate.
  assert (H2 : gameState (state (worldAfter presented)) = PLAYING)
    by (vm_compute; reflexivity).
  assert (H3 : In "hard" ["easy"; "medium"; "hard"]) by (simpl; tauto).
  assert (H4 : ¬ In "extreme" ["easy"; "medium"; "hard"]).
  { simpl. intros [H | [H | [H | []]]]; discriminate H. }
  destruct (RejectionFacts.illegal_operation_reported_and_ignored
              (initial 0) "extreme") as (Ha & _ & _ & Hd).
  destruct (RejectionFacts.illegal_operation_reported_and_ignored
              (worldAfter presented) "hard") as (_ & Hb & Hc & _).
  destruct (Ha H1) as [Ha1 _].
  split; [exact H1 | split; [exact H2 | split; [exact H3 | split; [exact H4 |]]]].
  split; [exact Ha1 | split; [exact (Hb H2) | split; [exact (Hc H2 H3) |]]].
  exact (Hd H4).
Defined.

(** The theorem of C6 on the run in which NEW and then SEEN are answered on
    "apple": two correct answers, score 2. *)
Lemma score_counts_correct_answers_witness :
  gameState (state (initial 0)) ≠ PLAYING
  ∧ exec sampleRandom 0 StartGame (initial 0)
    = Some (worldAfter [(0, StartGame)])
  ∧ execAll sampleRandom
      ((100, Fire 0%nat) :: ticks 1 200 9
       ++ [(1050, AnswerNew); (1300, AnswerSeen)])
      (worldAfter [(0, StartGame)])
    = Some (worldAfter doubleAnswer)
  ∧ currentScore (state (worldAfter doubleAnswer))
    = Z.of_nat
        (correctSinceStart sampleRandom
           ((100, Fire 0%nat) :: ticks 1 200 9
            ++ [(1050, AnswerNew); (1300, AnswerSeen)])
           (worldAfter [(0, StartGame)]) 0)
  ∧ correctSinceStart sampleRandom
      ((100, Fire 0%nat) :: ticks 1 200 9
       ++ [(1050, AnswerNew); (1300, AnswerSeen)])
      (worldAfter [(0, StartGame)]) 0 = 2%nat.
Proof.
  assert (H1 : gameState (state (initial 0)) ≠ PLAYING) by discriminate.
  assert (H2 : exec sampleRandom 0 StartGame (initial 0)
               = Some (worldAfter [(0, StartGame)]))
    by (vm_compute; reflexivity).
  assert (H3 : execAll sampleRandom
                 ((100, Fire 0%nat) :: ticks 1 200 9
                  ++ [(1050, AnswerNew); (1300, AnswerSeen)])
                 (worldAfter [(0, StartGame)])
               = Some (worldAfter doubleAnswer))
    by (vm_compute; reflexivity).
  split; [exact H1 | split; [exact H2 | split; [exact H3 |]]].
  destruct (score_counts_correct_answers sampleRandom _ _ _ _ _ H1 H2 H3)
    as (_ & H & _).
  split; [exact H | vm_compute; reflexivity].
Defined.

(** The theorem of C7 on the tick at 4000 ms of the countdown that was armed
    at 100 ms for 3.9 s: no time is left and no answer is being processed,
    a life is lost and no interval stays alive. *)
Lemma countdown_recomputed_and_fires_once_witness :
  reachable sampleRandom (worldAfter beforeExpiry)
  ∧ findInterval 1 (worldAfter beforeExpiry)
    = Some (mkInterval 1 100 (39000 # 10) 4000)
  ∧ exec sampleRandom 4000 (Tick 1) (worldAfter beforeExpiry)
    = Some (worldAfter (beforeExpiry ++ [(4000, Tick 1%positive)]))
  ∧ isProcessingAnswer (worldAfter beforeExpiry) = false
  ∧ lives (state (worldAfter (beforeExpiry ++ [(4000, Tick 1%positive)])))
    = lives (state (worldAfter beforeExpiry)) - 1
  ∧ intervals (worldAfter (beforeExpiry ++ [(4000, Tick 1%positive)])) = [].
Proof.
  assert (H0 : reachable sampleRandom (worldAfter beforeExpiry)).
  { apply (execAllOnTime_reachable sampleRandom beforeExpiry).
    vm_compute. reflexivity. }
  assert (H2 : findInterval 1 (worldAfter beforeExpiry)
               = Some (mkInterval 1 100 (39000 # 10) 4000))
    by (vm_compute; reflexivity).
  assert (H3 : exec sampleRandom 4000 (Tick 1) (worldAfter beforeExpiry)
               = Some (worldAfter (beforeExpiry ++ [(4000, Tick 1%positive)])))
    by (vm_compute; reflexivity).
  assert (Hg : isProcessingAnswer (worldAfter beforeExpiry) = false)
    by (vm_compute; reflexivity).
  assert (Hexp : (Qmax 0
                    (time_limit
                       (objects (worldAfter beforeExpiry)
                        !!! currentWordData (state (worldAfter beforeExpiry)))
                     * 1000
                     - inject_Z
                         (4000 - startTime (mkInterval 1 100 (39000 # 10) 4000)))
                  / 1000 <= 0)%Q)
    by (vm_compute; discriminate).
  split; [exact H0 | split; [exact H2 | split; [exact H3 | split; [exact Hg |]]]].
  destruct (countdown_recomputed_and_fires_once sampleRandom
              sampleRandom_range _ _ _ _ _ H0 H2 H3)
    as (_ & _ & _ & _ & _ & _ & H & _).
  destruct (H Hexp Hg) as (Hl & _ & _ & Hi & _).
  split; [exact Hl | exact Hi].
Defined.

(** The theorem of C10 on the draws of [sampleRandom] and the seen words
    ["apple"]. *)
Lemma getNextWord_bounded_and_in_range_witness :
  (∀ n, (0 <= sampleRandom n)%Q ∧ (sampleRandom n < 1)%Q)
  ∧ (0 < time_limit (fst (MockAPI.getNextWord sampleRandom ["apple"] 0)))%Q
  ∧ (snd (MockAPI.getNextWord sampleRandom ["apple"] 0) <= 52)%nat.
Proof.
  split; [exact sampleRandom_range |].
  destruct (SupplierContract.getNextWord_bounded_and_in_range
              sampleRandom ["apple"] 0 sampleRandom_range) as [_ H].
  destruct (MockAPI.getNextWord sampleRandom ["apple"] 0) as [wd k'].
  destruct H as (Hk & _ & _ & _ & Ht).
  split; [exact Ht | simpl; lia].
Defined.

(** The theorem of C8, as amended, on the world in which a snapshot has been
    taken while "apple" was on display. *)
Lemma getState_is_shallow_copy_witness :
  (0 < length (snapshots snapshotTaken))%nat
  ∧ (seenWords (state snapshotTaken) < length (arrays snapshotTaken))%nat
  ∧ (currentWordData (state snapshotTaken) < length (objects snapshotTaken))%nat
  ∧ exec sampleRandom 1050 AnswerNew snapshotTaken
    = Some (worldAfter (presented ++ [(1000, GetState); (1050, AnswerNew)]))
  ∧ snapshots (worldAfter (presented ++ [(1000, GetState); (1050, AnswerNew)]))
    !! 0%nat
    = snapshots snapshotTaken !! 0%nat
  ∧ seenList
      (run (holderPush (result GameEngine.getState snapshotTaken) "pear")
         (run GameEngine.getState snapshotTaken))
    = seenList snapshotTaken ++ ["pear"]
  ∧ currentWord
      (run (holderSetWord (result GameEngine.getState snapshotTaken) "pear")
         (run GameEngine.getState snapshotTaken))
    = "pear".
Proof.
  assert (H1 : (0 < length (snapshots snapshotTaken))%nat)
    by (vm_compute; lia).
  assert (H2 : (seenWords (state snapshotTaken)
                < length (arrays snapshotTaken))%nat)
    by (vm_compute; lia).
  assert (H3 : (currentWordData (state snapshotTaken)
                < length (objects snapshotTaken))%nat)
    by (vm_compute; lia).
  assert (H4 : exec sampleRandom 1050 AnswerNew snapshotTaken
               = Some (worldAfter
                         (presented ++ [(1000, GetState); (1050, AnswerNew)])))
    by (vm_compute; reflexivity).
  pose proof (SnapshotFacts.getState_is_shallow_copy sampleRandom snapshotTaken)
    as H.
  cbv zeta in H. destruct H as (_ & Hframe & _ & _ & Hpush & Hword).
  split; [exact H1 | split; [exact H2 | split; [exact H3 |]]].
  split; [exact H4 | split; [exact (Hframe _ _ _ _ H1 H4) |]].
  split.
  - destruct (Hpush H2 "pear") as [Hp _]. exact Hp.
  - exact (Hword H3 "pear").
Defined.

(** * More of the engine *)

Ltac leb_to_prop :=
  repeat match goal with
    | H : (_ <=? _) = true |- _ => apply Z.leb_le in H
    | H : (_ <=? _) = false |- _ => apply Z.leb_gt in H
    | H : (_ <? _) = true |- _ => apply Z.ltb_lt in H
    | H : (_ <? _) = false |- _ => apply Z.ltb_ge in H
    end.

(** ** Invariants of every task *)

Lemma In_alter {A : Type} (f : A → A) (i : nat) (l : list A) (a : A) :
  In a (alter f i l) → In a l ∨ ∃ a0, In a0 l ∧ a = f a0.
Proof.
  revert i; induction l as [|b l IH]; intros [|i]; simpl; auto.
  - intros [<- | H]; [right; eauto | left; auto].
  - intros [<- | H]; [left; auto |].
    destruct (IH _ H) as [H' | (a0 & H1 & H2)]; [left; auto | right; eauto].
Qed.

Lemma In_lookup_total (l : list (list string)) (i : nat) (x : string) :
  In x (l !!! i) → ∃ a, In a l ∧ In x a.
Proof.
  intros Hx. destruct (l !! i) as [a|] eqn:E.
  - rewrite (list_lookup_total_correct _ _ _ E) in Hx.
    exists a. split; [| exact Hx].
    apply list_elem_of_In. eapply list_elem_of_lookup_2; eauto.
  - rewrite list_lookup_total_alt, E in Hx. destruct Hx.
Qed.

Lemma In_lookup_total_object (l : list WordData) (i : nat) :
  (i < length l)%nat → In (l !!! i) l.
Proof.
  intros Hi. destruct (lookup_lt_is_Some_2 l i Hi) as [o E].
  rewrite (list_lookup_total_correct _ _ _ E).
  apply list_elem_of_In. eapply list_elem_of_lookup_2; eauto.
Qed.

Section MoreInvariants.

Variable random : nat → Q.

Lemma exec_timerOwned t e w w' :
  timerOwned w → exec random t e w = Some w' → timerOwned w'.
Proof.
  intros Ho H. destruct_world w. unfold timerOwned in Ho. mcompute_in Ho.
  destruct ti as [h0|];
    [ destruct Ho as ([h1 s0 d0 n0] & -> & Hh); simpl in Hh; subst h1
    | subst iv ].
  all: destruct e; exec_inv H; injection H as <-; unfold timerOwned; mcompute;
    mlist; rewrite ?Pos.eqb_refl; mlist;
    first [reflexivity | eexists; split; reflexivity ].
Qed.

Lemma exec_boundsKept t e w w' :
  boundsKept w → exec random t e w = Some w' → boundsKept w'.
Proof.
  intros Hb H. destruct_world w. unfold boundsKept in Hb. mcompute_in Hb.
  destruct Hb as (Hl & Hs & Hp).
  destruct e; exec_inv H; injection H as <-; unfold boundsKept; mcompute;
    leb_to_prop; repeat split; try lia; try discriminate;
    try (intros _; lia); try (intros Hq; specialize (Hp Hq); lia).
Qed.

Lemma exec_modeKnown t e w w' :
  modeKnown w → exec random t e w = Some w' → modeKnown w'.
Proof.
  intros Hm H. destruct_world w. unfold modeKnown in Hm. mcompute_in Hm.
  destruct e; exec_inv H; injection H as <-; unfold modeKnown; mcompute;
    try exact Hm.
  all: apply includes_In;
    match goal with E : includes _ _ = true |- _ => exact E end.
Qed.

Lemma exec_refsValid t e w w' :
  refsValid w → exec random t e w = Some w' → refsValid w'.
Proof.
  intros Hr H. destruct_world w. unfold refsValid in Hr. mcompute_in Hr.
  destruct Hr as (H1 & H2 & H3 & H4).
  destruct e; exec_inv H; injection H as <-; unfold refsValid; mcompute;
    rewrite ?length_alter, ?length_app; cbn [length].
  all: split; [lia | split; [lia | split]].
  all: try (intros q_ sq_ Hp Hc;
            repeat match goal with
              | H : In _ (_ ++ _) |- _ =>
                  apply in_app_or in H; destruct H as [H | [<- | []]]
              | H : In _ (delete _ _) |- _ => apply In_delete in H
              end;
            first [ discriminate Hc
                  | injection Hc as <-; lia
                  | pose proof (H3 _ _ Hp Hc); lia ]).
  all: try (intros s Hs;
            repeat match goal with
              | H : In _ (_ ++ _) |- _ =>
                  apply in_app_or in H; destruct H as [H | [<- | []]]
              end;
            first [ destruct (H4 _ Hs); split; lia
                  | cbn [seenWords currentWordData]; split; lia ]).
Qed.

Lemma initial_refsValid (t0 : Z) : refsValid (initial t0).
Proof.
  unfold refsValid. simpl. split; [lia | split; [lia | split]].
  - intros p seen [].
  - intros s [].
Qed.

(** X1.  In every world that the engine can reach at most one countdown is
    alive, and it is the one whose handle [timerInterval] holds: when
    [timerInterval] is null no interval is live. *)
Theorem one_countdown_alive (w : World) :
  reachable random w → timerOwned w.
Proof.
  induction 1 as [t0 | w t e w' _ IH Hexec].
  - reflexivity.
  - exact (exec_timerOwned t e w w' IH Hexec).
Qed.

(** X2.  In every reachable world the references are valid: [seenWords]
    and [currentWordData] of the state, the array that a pending
    [getNextWord] was given, and the array and word object of every object
    that [getState] has returned, all exist. *)
Theorem references_stay_valid (w : World) :
  reachable random w → refsValid w.
Proof.
  induction 1 as [t0 | w t e w' _ IH Hexec].
  - apply initial_refsValid.
  - exact (exec_refsValid t e w w' IH Hexec).
Qed.

(** X3.  In every reachable world the lives are at most 3, the score is
    not negative, and while the phase is PLAYING at least one life is
    left. *)
Theorem lives_and_score_bounds (w : World) :
  reachable random w → boundsKept w.
Proof.
  induction 1 as [t0 | w t e w' _ IH Hexec].
  - unfold boundsKept. simpl. repeat split; lia.
  - exact (exec_boundsKept t e w w' IH Hexec).
Qed.

(** X4.  In every reachable world the mode is one of easy, medium and
    hard: [setMode] is the only writer and it installs no other value. *)
Theorem mode_is_one_of_three (w : World) :
  reachable random w → modeKnown w.
Proof.
  induction 1 as [t0 | w t e w' _ IH Hexec].
  - unfold modeKnown. simpl. tauto.
  - exact (exec_modeKnown t e w w' IH Hexec).
Qed.

End MoreInvariants.

Section Words.

Variable random : nat → Q.
Hypothesis random_range : ∀ n, (0 <= random n)%Q ∧ (random n < 1)%Q.

Lemma exec_wordsKnown t e w w' :
  refsValid w → wordsKnown w → exec random t e w = Some w' →
  wordsKnown w'.
Proof.
  intros Hr Hk H. destruct_world w. unfold refsValid in Hr. mcompute_in Hr.
  destruct Hr as (_ & H2 & _ & _).
  unfold wordsKnown in Hk. mcompute_in Hk. destruct Hk as (Hk1 & Hk2).
  assert (Hcur : knownWord (word (ob !!! cw))).
  { apply Hk2. now apply In_lookup_total_object. }
  destruct e; exec_inv H; injection H as <-; unfold wordsKnown; mcompute.
  all: try match goal with
         | Hw : MockAPI.getNextWord random ?l ?k = _ |- _ =>
             pose proof (MockAPIFacts.getNextWord_spec random random_range l k)
               as Hspec;
             rewrite Hw in Hspec;
             destruct Hspec as (_ & _ & Hword & _)
         end.
  all: split.
  all: try exact Hk1.
  all: try exact Hk2.
  all: try (intros a x Ha Hx;
            first
              [ apply in_app_or in Ha; destruct Ha as [Ha | [<- | []]];
                [exact (Hk1 _ _ Ha Hx) | destruct Hx]
              | apply In_alter in Ha;
                destruct Ha as [Ha | (a0 & Ha & ->)];
                [ exact (Hk1 _ _ Ha Hx)
                | apply in_app_or in Hx; destruct Hx as [Hx | [<- | []]];
                  [exact (Hk1 _ _ Ha Hx) | exact Hcur] ] ]).
  all: intros o Ho; apply in_app_or in Ho; destruct Ho as [Ho | [<- | []]];
    [exact (Hk2 _ Ho) |].
  all: destruct Hword as [Hword | Hword]; [| right; exact Hword].
  all: destruct (In_lookup_total _ _ _ Hword) as (a & Ha & Hx);
    exact (Hk1 _ _ Ha Hx).
Qed.

Lemma reachable_wordsKnown (w : World) :
  reachable random w → refsValid w ∧ wordsKnown w.
Proof.
  induction 1 as [t0 | w t e w' _ [IHr IHk] Hexec].
  - split; [apply initial_refsValid |]. unfold wordsKnown. simpl. split.
    + intros a x [<- | []] [].
    + intros o [<- | []]. left. reflexivity.
  - split.
    + exact (exec_refsValid random t e w w' IHr Hexec).
    + exact (exec_wordsKnown t e w w' IHr IHk Hexec).
Qed.

(** X5.  With draws in [0, 1), every word that a reachable world holds, in
    [seenWords] or as the current word, is a word of the bank or the empty
    word of the constructor: no index into the bank or into [seenWords]
    ever falls outside the array. *)
Theorem seen_words_come_from_bank (w : World) :
  reachable random w →
  (∀ x, In x (seenList w) → knownWord x) ∧ knownWord (currentWord w).
Proof.
  intros Hreach.
  destruct (reachable_wordsKnown w Hreach) as [(_ & Hc & _) [Hk1 Hk2]].
  split.
  - intros x Hx. unfold seenList in Hx.
    destruct (In_lookup_total _ _ _ Hx) as (a & Ha & Hxa).
    exact (Hk1 a x Ha Hxa).
  - unfold currentWord. apply Hk2. now apply In_lookup_total_object.
Qed.

End Words.

(** ** Phases *)

Section Phases.

Variable random : nat → Q.

Lemma exec_phase t e w w' :
  exec random t e w = Some w' →
  gameState (state w') = gameState (state w)
  ∨ (isStart e ∧ gameState (state w) ≠ PLAYING
     ∧ gameState (state w') = PLAYING)
  ∨ (isResolution e ∧ gameState (state w') = GAME_OVER
     ∧ lives (state w') = lives (state w) - 1 ∧ lives (state w') <= 0).
Proof.
  intros H. destruct_world w.
  destruct e; exec_inv H; injection H as <-; mcompute; leb_to_prop.
  all: first
         [ left; reflexivity
         | right; left; repeat split; discriminate
         | right; right; repeat split; lia ].
Qed.

(** X6.  A task changes the phase in two ways only: an accepted
    [startGame] moves a phase that is not PLAYING to PLAYING, and an answer
    or a tick of the countdown moves to GAME_OVER, taking one life and
    leaving none.  So the phase MENU is never entered again. *)
Theorem phase_transitions t e w w' :
  exec random t e w = Some w' →
  (gameState (state w') = gameState (state w)
   ∨ (isStart e ∧ gameState (state w) ≠ PLAYING
      ∧ gameState (state w') = PLAYING)
   ∨ (isResolution e ∧ gameState (state w') = GAME_OVER
      ∧ lives (state w') = lives (state w) - 1 ∧ lives (state w') <= 0))
  ∧ (gameState (state w') = MENU → gameState (state w) = MENU).
Proof.
  intros H. pose proof (exec_phase t e w w' H) as Hp.
  split; [exact Hp |]. intros Hm.
  destruct Hp as [Hq | [(_ & _ & Hq) | (_ & Hq & _)]]; congruence.
Qed.

(** X7.  While the phase is PLAYING no task changes the mode. *)
Theorem mode_kept_while_playing t e w w' :
  gameState (state w) = PLAYING → exec random t e w = Some w' →
  gameMode (state w') = gameMode (state w).
Proof.
  intros Hp H. destruct_world w. mcompute_in Hp. subst.
  destruct e; exec_inv H; injection H as <-; reflexivity.
Qed.

(** X8.  Outside PLAYING, as long as [startGame] is not called, the phase
    stays outside PLAYING and the score stays what it is: late answers,
    late words, stale countdowns and [saveScore] leave the final score
    alone. *)
Theorem final_score_kept_until_next_start es w w' :
  gameState (state w) ≠ PLAYING → noStart es →
  execAll random es w = Some w' →
  gameState (state w') ≠ PLAYING
  ∧ currentScore (state w') = currentScore (state w).
Proof.
  revert w. induction es as [| [t e] es IH]; intros w Hp Hn H.
  - injection H as <-. split; [exact Hp | reflexivity].
  - simpl in H. destruct (exec random t e w) as [w1 |] eqn:E; [| discriminate].
    inversion Hn as [| ? ? He Hn']; subst. cbn [snd] in He.
    assert (Hp1 : gameState (state w1) ≠ PLAYING).
    { destruct (exec_phase t e w w1 E) as [Hq | [(Hs & _) | (_ & Hq & _)]].
      - congruence.
      - contradiction.
      - rewrite Hq. discriminate. }
    destruct (IH w1 Hp1 Hn' H) as [Hq Hs]. split; [exact Hq |].
    rewrite Hs, (exec_score random t e w w1 E).
    assert (Hnp : is_playing (state w) = false).
    { unfold is_playing. destruct (gameState (state w)); congruence. }
    assert (startsRound e w = false) as ->
      by (destruct e; try reflexivity; exfalso; apply He; exact I).
    assert (correctAnswer e w = false) as ->.
    { destruct e; try reflexivity; unfold correctAnswer, evaluated;
        rewrite Hnp; reflexivity. }
    reflexivity.
Qed.

End Phases.

(** ** The countdown *)

Lemma find_filter_self (h : positive) (iv : list Interval) :
  List.find (λ i, Pos.eqb (handle i) h)
    (List.filter (λ i, negb (Pos.eqb (handle i) h)) iv) = None.
Proof.
  induction iv as [| i iv IH]; [reflexivity |]. simpl.
  destruct (Pos.eqb (handle i) h) eqn:E; simpl; [exact IH |].
  rewrite E. exact IH.
Qed.

Lemma find_filter_other (h h0 : positive) (iv : list Interval) :
  h ≠ h0 →
  List.find (λ i, Pos.eqb (handle i) h)
    (List.filter (λ i, negb (Pos.eqb (handle i) h0)) iv)
  = List.find (λ i, Pos.eqb (handle i) h) iv.
Proof.
  intros Hne. induction iv as [| i iv IH]; [reflexivity |]. simpl.
  destruct (Pos.eqb_spec (handle i) h0) as [He | Hn]; simpl.
  - destruct (Pos.eqb_spec (handle i) h) as [He' | _]; [| exact IH].
    exfalso. apply Hne. congruence.
  - destruct (Pos.eqb (handle i) h); [reflexivity | exact IH].
Qed.

Lemma Qmax_mono (x y : Q) : (x <= y)%Q → (Qmax 0 x <= Qmax 0 y)%Q.
Proof.
  intros H. unfold Qmax.
  destruct (Qle_bool 0 x) eqn:Ex, (Qle_bool 0 y) eqn:Ey;
    try apply Qle_bool_iff in Ex; try apply Qle_bool_iff in Ey;
    try exact H; try apply Qle_refl; try exact Ey.
  exfalso. assert (Hy : (0 <= y)%Q) by (eapply Qle_trans; eassumption).
  apply Qle_bool_iff in Hy. congruence.
Qed.


Module TimerFacts.
Import GameEngine.

(** X9.  [stopTimer] leaves no handle in [timerInterval] and clears the
    interval whose handle it held; other intervals, the state and the
    pending timeouts are untouched, and a second [stopTimer] does
    nothing. *)
Theorem stopTimer_idempotent (w : World) :
  timerInterval (run stopTimer w) = None
  ∧ run stopTimer (run stopTimer w) = run stopTimer w
  ∧ (∀ h, timerInterval w = Some h →
       findInterval h (run stopTimer w) = None)
  ∧ (∀ h, timerInterval w ≠ Some h →
       findInterval h (run stopTimer w) = findInterval h w)
  ∧ state (run stopTimer w) = state w
  ∧ timeouts (run stopTimer w) = timeouts w.
Proof.
  destruct_world w. destruct ti as [h0 |]; mcompute.
  - repeat split.
    + intros h [= ->]. apply find_filter_self.
    + intros h Hh. apply find_filter_other. congruence.
  - repeat split. intros h [=].
Qed.

Lemma tick_timerValue (start : Z) (dur : Q) (w : World) :
  timerValue (state (run (tick start dur) w))
  = toFixed 1 (Qmax 0 (dur - inject_Z (clock w - start)) / 1000).
Proof.
  destruct_world w.
  destruct (Qle_bool (Qmax 0 (dur - inject_Z (cl - start)) / 1000) 0) eqn:Hq,
    g, ti, (lv - 1 <=? 0) eqn:Hlv;
    mcompute; rewrite Hq; mcompute; rewrite ?Hlv; reflexivity.
Qed.

(** X10.  The value that a tick of a countdown writes into [timerValue]
    never goes up as the clock advances: of two ticks of the same
    countdown, the later one writes a value that is not greater. *)
Theorem countdown_display_never_increases
    (start : Z) (dur : Q) (w1 w2 : World) :
  clock w1 <= clock w2 →
  (timerValue (state (run (tick start dur) w2))
   <= timerValue (state (run (tick start dur) w1)))%Q.
Proof.
  intros Hc. rewrite !tick_timerValue.
  assert (Hm : (Qmax 0 (dur - inject_Z (clock w2 - start))
                <= Qmax 0 (dur - inject_Z (clock w1 - start)))%Q).
  { apply Qmax_mono. apply Qplus_le_compat; [apply Qle_refl |].
    apply Qopp_le_compat. rewrite <- Zle_Qle. lia. }
  apply toFixed_mono.
  - apply Qle_shift_div_l; [reflexivity |]. rewrite Qmult_0_l.
    apply Qmax_nonneg.
  - apply Qmult_le_compat_r; [exact Hm | discriminate].
Qed.

End TimerFacts.

(** ** The supplier of words *)

Lemma floor_near (q x : Q) :
  (q <= x)%Q → (x < q + 1)%Q → (q - 1 < x)%Q ∧ (x < q + 1)%Q.
Proof. intros. split; [lra | assumption]. Qed.


Module SupplierFacts.
Import MockAPI.

Section Supplier.

Variable random : nat → Q.
Hypothesis random_range : ∀ n, (0 <= random n)%Q ∧ (random n < 1)%Q.

Lemma drawWord_novel (seen : list string) (attempts k : nat) :
  includes seen (bankWord random k) = false →
  drawWord random seen attempts k = (bankWord random k, S attempts, S k).
Proof.
  intros Hn. funelim (drawWord random seen attempts k).
  - pose proof e as e'. rewrite Hn in e'. discriminate e'.
  - reflexivity.
Qed.

(** X11.  With no word seen yet, [getNextWord] never takes the repeat
    branch and accepts its first candidate: it uses exactly two draws, the
    first for the word of the bank and the second for the difficulty, from
    which the time limit follows. *)
Theorem getNextWord_first_word (k : nat) :
  getNextWord random [] k =
    (mkWordData (bankWord random k) (toFixed 2 (random (S k)))
       (toFixed 1 (5 - random (S k) * 3)), S (S k)).
Proof.
  unfold getNextWord. cbn [length Nat.ltb Nat.leb].
  rewrite (drawWord_novel [] 0 k) by reflexivity. reflexivity.
Qed.

(** The element that [seenWords[Math.floor(r * seenWords.length)]] reads
    exists, at a position less than one away from [r * seenWords.length]. *)
Lemma js_index_position (l : list string) (k : nat) :
  (0 < length l)%nat →
  ∃ i : nat,
    l !! i = Some (js_index l (floor_scaled (random k) (length l)))
    ∧ (inject_Z (Z.of_nat i) - 1
       < random k * inject_Z (Z.of_nat (length l)))%Q
    ∧ (random k * inject_Z (Z.of_nat (length l))
       < inject_Z (Z.of_nat i) + 1)%Q.
Proof.
  intros Hl.
  pose proof (MockAPIFacts.floor_scaled_range random random_range k _ Hl)
    as [H0 H1].
  exists (Z.to_nat (floor_scaled (random k) (length l))). split.
  - unfold js_index.
    destruct (Z.ltb_spec (floor_scaled (random k) (length l)) 0); [lia |].
    rewrite nth_lookup.
    destruct (lookup_lt_is_Some_2 l
                (Z.to_nat (floor_scaled (random k) (length l))))
      as [x Hx]; [lia |].
    rewrite Hx. reflexivity.
  - rewrite Z2Nat.id by exact H0. unfold floor_scaled.
    apply floor_near.
    + apply Qfloor_le.
    + pose proof (Qlt_floor (random k * inject_Z (Z.of_nat (length l))))
        as H.
      rewrite inject_Z_plus in H. exact H.
Qed.

(** X12.  With a word seen and a first draw below the double 0.35,
    [getNextWord] repeats: the word is a member of [seenWords], the element
    at the position that the second draw selects (the position is less than
    one away from the draw times the length), and three draws are used. *)
Theorem getNextWord_repeat (seenWords : list string) (k : nat) :
  seenWords ≠ [] →
  (random k < repeatChance)%Q →
  let '(wd, k') := getNextWord random seenWords k in
  In (word wd) seenWords
  ∧ (∃ i : nat,
       seenWords !! i = Some (word wd)
       ∧ (inject_Z (Z.of_nat i) - 1
          < random (S k) * inject_Z (Z.of_nat (length seenWords)))%Q
       ∧ (random (S k) * inject_Z (Z.of_nat (length seenWords))
          < inject_Z (Z.of_nat i) + 1)%Q)
  ∧ k' = (k + 3)%nat.
Proof.
  intros Hne Hlt. unfold getNextWord.
  assert (Hlen : (0 < length seenWords)%nat)
    by (destruct seenWords; [congruence | simpl; lia]).
  rewrite (proj2 (Nat.ltb_lt _ _) Hlen).
  assert (Hq : Qltb (random k) repeatChance = true).
  { unfold Qltb. apply negb_true_iff.
    destruct (Qle_bool repeatChance (random k)) eqn:E; [| reflexivity].
    apply Qle_bool_iff in E. exfalso. apply (Qlt_not_le _ _ Hlt E). }
  rewrite Hq. cbn [word].
  split; [now apply MockAPIFacts.js_index_in |].
  split; [now apply js_index_position | lia].
Qed.

(** X13.  When every word of the bank has been seen, the search for a new
    word gives up after 50 candidates and returns the 50th, a word that
    has been seen: the word presented as not repeated is a repeat. *)
Theorem drawWord_bank_exhausted (seenWords : list string) (k : nat) :
  (∀ x, In x wordBank → In x seenWords) →
  drawWord random seenWords 0 k
  = (bankWord random (k + 49), 50%nat, (k + 50)%nat)
  ∧ In (bankWord random (k + 49)) seenWords.
Proof.
  intros Hall.
  pose proof (MockAPIFacts.drawWord_spec random seenWords 0 k) as H.
  destruct (drawWord random seenWords 0 k) as [[w a] k'].
  destruct H as (Ha & Hb & Hk & Hw & Hn).
  assert (Hin : In w seenWords).
  { apply Hall. rewrite Hw. now apply MockAPIFacts.bankWord_in. }
  assert (Ea : a = 50%nat).
  { destruct (Nat.lt_ge_cases a 50) as [Hlt | Hge]; [| lia].
    specialize (Hn Hlt). apply includes_not_In in Hn. contradiction. }
  assert (Ek : k' = (k + 50)%nat) by lia.
  assert (Ew : w = bankWord random (k + 49)) by (rewrite Hw; f_equal; lia).
  rewrite Ea, Ek, <- Ew. split; [reflexivity | exact Hin].
Qed.

Lemma limit_error (r d l : Q) :
  (r - (1 # 200) <= d)%Q → (d <= r + (1 # 200))%Q →
  (5 - r * 3 - (1 # 20) <= l)%Q → (l <= 5 - r * 3 + (1 # 20))%Q →
  ((4935 # 1000) - 3 * d <= l)%Q ∧ (l <= (5065 # 1000) - 3 * d)%Q.
Proof. intros. split; lra. Qed.

Lemma limit_argument_nonneg (r : Q) : (r < 1)%Q → (0 <= 5 - r * 3)%Q.
Proof. intros. lra. Qed.

Lemma limit_tracks_difficulty (r : Q) :
  (0 <= r)%Q → (r < 1)%Q →
  ((4935 # 1000) - 3 * toFixed 2 r <= toFixed 1 (5 - r * 3))%Q
  ∧ (toFixed 1 (5 - r * 3) <= (5065 # 1000) - 3 * toFixed 2 r)%Q.
Proof.
  intros H0 H1.
  destruct (toFixed2_error r H0) as [Hd1 Hd2].
  destruct (toFixed1_error _ (limit_argument_nonneg r H1)) as [Ht1 Ht2].
  exact (limit_error r _ _ Hd1 Hd2 Ht1 Ht2).
Qed.

(** X14.  The two numbers that [getNextWord] returns belong together: the
    time limit is 5 minus three times the difficulty, up to the rounding
    of the two, an error of at most 0.065 seconds. *)
Theorem time_limit_tracks_difficulty (seenWords : list string) (k : nat) :
  let '(wd, _) := getNextWord random seenWords k in
  ((4935 # 1000) - 3 * difficulty wd <= time_limit wd)%Q
  ∧ (time_limit wd <= (5065 # 1000) - 3 * difficulty wd)%Q.
Proof.
  unfold getNextWord.
  destruct (0 <? length seenWords)%nat;
    [destruct (Qltb (random k) repeatChance) |];
    try destruct (drawWord random seenWords 0 _) as [[w a] k1];
    cbn [difficulty time_limit];
    apply limit_tracks_difficulty; apply random_range.
Qed.

End Supplier.
End SupplierFacts.

(** ** A new round *)

Module RestartFacts.
Import GameEngine.

(** X15.  [startGame] clears neither the current word nor the guard,
    and an answer is accepted before the first word of the round arrives.
    Right after an accepted [startGame] the word on display is the one
    left by the constructor or by the previous round and [seenWords] is
    empty.  When no answer is being processed, NEW on that word scores a
    point and appends it to [seenWords], and SEEN on it costs a life; when
    the guard is still set, NEW and SEEN are both refused with "Already
    processing an answer...". *)
Theorem answer_right_after_start (w : World) :
  gameState (state w) ≠ PLAYING →
  currentWord (run startGame w) = currentWord w
  ∧ seenList (run startGame w) = []
  ∧ isProcessingAnswer (run startGame w) = isProcessingAnswer w
  ∧ (isProcessingAnswer w = false →
       currentScore (state (run answerNew (run startGame w))) = 1
       ∧ lives (state (run answerNew (run startGame w))) = 3
       ∧ seenList (run answerNew (run startGame w)) = [currentWord w]
       ∧ currentScore (state (run answerSeen (run startGame w))) = 0
       ∧ lives (state (run answerSeen (run startGame w))) = 2)
  ∧ (isProcessingAnswer w = true →
       run answerNew (run startGame w)
       = set_console
           (console (run startGame w)
            ++ [[Lit "Already processing an answer..."]])
           (run startGame w)
       ∧ run answerSeen (run startGame w)
         = set_console
             (console (run startGame w)
              ++ [[Lit "Already processing an answer..."]])
             (run startGame w)).
Proof.
  intros Hp. destruct_world w. mcompute_in Hp.
  destruct gs; [| congruence |]; destruct ti, g; mcompute;
    rewrite ?list_lookup_total_middle by reflexivity;
    cbn [includes existsb]; mcompute;
    rewrite ?list_lookup_total_alter;
    rewrite ?decide_True
      by (split; [reflexivity | rewrite length_app; simpl; lia]);
    rewrite ?list_lookup_total_middle by reflexivity;
    (split; [reflexivity | split; [reflexivity | split; [reflexivity |]]]);
    (split; intros Hg; [| split]); try discriminate Hg; repeat split.
Qed.

(** X16.  [startGame] does not reset the guard.  The incorrect answer
    that takes the last life leaves the guard set until [saveScore]
    resolves; a [startGame] in between starts a round in which the guard
    is still set, so that SEEN and NEW are both refused with "Already
    processing an answer..." until the score of the lost round has been
    saved. *)
Theorem guard_survives_restart (w : World) :
  gameState (state w) = PLAYING →
  isProcessingAnswer w = false →
  lives (state w) <= 1 →
  ¬ In (currentWord w) (seenList w) →
  let w1 := run answerSeen w in
  let w2 := run startGame w1 in
  (gameState (state w1) = GAME_OVER ∧ isProcessingAnswer w1 = true)
  ∧ (gameState (state w2) = PLAYING ∧ isProcessingAnswer w2 = true)
  ∧ run answerNew w2 =
      set_console (console w2 ++ [[Lit "Already processing an answer..."]]) w2
  ∧ run answerSeen w2 =
      set_console (console w2 ++ [[Lit "Already processing an answer..."]]) w2
  ∧ ∀ score mode,
      isProcessingAnswer (run (resolveSave score mode) w2) = false.
Proof.
  intros Hp Hg Hl Hin. apply includes_not_In in Hin. destruct_world w.
  mcompute_in Hp. mcompute_in Hg. mcompute_in Hl. mcompute_in Hin. subst.
  assert (Hlv : (lv - 1 <=? 0) = true) by (apply Z.leb_le; lia).
  cbv zeta.
  destruct ti; mcompute; rewrite Hin; mcompute; rewrite Hlv; mcompute;
    repeat split.
Qed.

End RestartFacts.

(** ** Snapshots and the page *)

Section Stable.

Variable random : nat → Q.

Lemma old_array_kept (a l : nat) (A : list string) (s : GameState) t e v v' :
  ((a < seenWords (state v))%nat ∧ arrays v !! a = Some A
   ∧ snapshots v !! l = Some s) →
  exec random t e v = Some v' →
  (a < seenWords (state v'))%nat ∧ arrays v' !! a = Some A
  ∧ snapshots v' !! l = Some s.
Proof.
  intros (H1 & H2 & H3) H. destruct_world v.
  mcompute_in H1. mcompute_in H2. mcompute_in H3.
  pose proof (lookup_lt_Some _ _ _ H2) as Ha.
  destruct e; exec_inv H; injection H as <-; mcompute.
  all: repeat split; try assumption; try lia.
  all: try (rewrite list_lookup_alter_ne by lia; assumption).
  all: try (rewrite lookup_app_l by lia; assumption).
  all: rewrite lookup_app_l; [assumption | eapply lookup_lt_Some; eassumption].
Qed.

Lemma old_array_kept_run
    (a l : nat) (A : list string) (s : GameState) es v v' :
  ((a < seenWords (state v))%nat ∧ arrays v !! a = Some A
   ∧ snapshots v !! l = Some s) →
  execAll random es v = Some v' →
  (a < seenWords (state v'))%nat ∧ arrays v' !! a = Some A
  ∧ snapshots v' !! l = Some s.
Proof.
  revert v. induction es as [| [t e] es IH]; intros v Hv H.
  - injection H as <-. exact Hv.
  - simpl in H. destruct (exec random t e v) as [v1 |] eqn:E; [| discriminate].
    apply (IH v1); [| exact H]. exact (old_array_kept a l A s t e v v1 Hv E).
Qed.

(** X17.  [startGame] gives the new round a fresh array.  An object
    returned by [getState] outside PLAYING therefore stops changing once
    the next round has started: whatever the engine does from then on,
    its fields and the contents of its [seenWords] stay as they were. *)
Theorem snapshot_of_finished_round_is_stable
    (w w1 w' : World) (l : loc) (t : Z) (es : list (Z * Event)) :
  (l < length (snapshots w))%nat →
  (seenWords (snapshots w !!! l) < length (arrays w))%nat →
  gameState (state w) ≠ PLAYING →
  exec random t StartGame w = Some w1 →
  execAll random es w1 = Some w' →
  snapshots w' !! l = snapshots w !! l
  ∧ snapshotSeen w' l = snapshotSeen w l.
Proof.
  intros Hl Ha Hp Hstart Hrun. unfold snapshotSeen. unfold loc in *.
  destruct (lookup_lt_is_Some_2 _ _ Hl) as [s Hs].
  pose proof (list_lookup_total_correct _ _ _ Hs) as Hs'.
  rewrite Hs' in Ha.
  destruct (lookup_lt_is_Some_2 _ _ Ha) as [A HA].
  assert (H1 : (seenWords s < seenWords (state w1))%nat
               ∧ arrays w1 !! seenWords s = Some A
               ∧ snapshots w1 !! l = Some s).
  { destruct_world w. mcompute_in Hp. mcompute_in Hs. mcompute_in HA.
    mcompute_in Ha.
    exec_inv Hstart; try congruence; injection Hstart as <-; mcompute;
      (split; [exact Ha | split; [| exact Hs]]);
      rewrite lookup_app_l by exact Ha; exact HA. }
  destruct (old_array_kept_run _ _ _ _ es w1 w' H1 Hrun) as (_ & HA' & Hs2).
  split; [congruence |].
  rewrite (list_lookup_total_correct _ _ _ Hs2), Hs'.
  rewrite (list_lookup_total_correct _ _ _ HA').
  rewrite (list_lookup_total_correct _ _ _ HA). reflexivity.
Qed.

Lemma exec_forgets_snapshots t e w1 w2 w1' :
  forgetSnapshots w1 = forgetSnapshots w2 →
  exec random t e w1 = Some w1' →
  ∃ w2', exec random t e w2 = Some w2'
         ∧ forgetSnapshots w2' = forgetSnapshots w1'.
Proof.
  intros Heq H. destruct_world w1.
  destruct w2 as [st2 ti2 g2 ar2 ob2 sn2 to2 iv2 nh2 dr2 co2 cl2].
  unfold forgetSnapshots in Heq. mcompute_in Heq.
  injection Heq as <- <- <- <- <- <- <- <- <- <- <-.
  unfold forgetSnapshots.
  destruct e; exec_inv H; injection H as <-; mcompute; mlist;
    rewrite ?Pos.eqb_refl;
    repeat match goal with
      | E : ?x = _ |- context [?x] => rewrite E; mcompute; mlist
      end;
    eexists; split; reflexivity.
Qed.

(** X18.  The engine writes the objects that [getState] returns and never
    reads them: two worlds that differ only in these objects run the same
    events to two worlds that differ only in these objects.  Calling
    [getState], or not calling it, has no effect on the game. *)
Theorem engine_never_reads_snapshots es w1 w2 w1' :
  forgetSnapshots w1 = forgetSnapshots w2 →
  execAll random es w1 = Some w1' →
  ∃ w2', execAll random es w2 = Some w2'
         ∧ forgetSnapshots w2' = forgetSnapshots w1'.
Proof.
  revert w1 w2. induction es as [| [t e] es IH]; intros w1 w2 Heq H.
  - injection H as <-. exists w2. split; [reflexivity | now symmetry].
  - simpl in H. destruct (exec random t e w1) as [v1 |] eqn:E; [| discriminate].
    destruct (exec_forgets_snapshots t e w1 w2 v1 Heq E) as (v2 & E2 & Hv).
    simpl. rewrite E2. apply (IH v1 v2); [now symmetry | exact H].
Qed.

End Stable.

Module UIFacts.
Import UI.

Section PageFacts.

Variable random : nat → Q.

Lemma render_forgets (p : Page) :
  forgetSnapshots (world (render p)) = forgetSnapshots (world p).
Proof. destruct p as [w d]. destruct_world w. reflexivity. Qed.

Lemma act_engine t a p p' :
  act random t a p = Some p' →
  ∃ w', exec random t (engineEvent a) (world p) = Some w'
        ∧ forgetSnapshots (world p') = forgetSnapshots w'.
Proof.
  intros H. destruct a; cbn [act engineEvent] in *; unfold click in *.
  1-3: destruct (exec random t _ (world p)) as [w |]; [| discriminate];
    injection H as <-; exists w; split; [reflexivity | apply render_forgets].
  - unfold exec. cbn [task]. destruct (t <? clock (world p)); [discriminate |].
    eexists. split; [reflexivity |].
    destruct (is_playing _); injection H as <-;
      [rewrite render_forgets |]; cbn [world];
      destruct (world p) as [st ti g ar ob sn to iv nh dr co cl]; reflexivity.
  - destruct (exec random t e (world p)) as [w |]; [| discriminate].
    injection H as <-. exists w. split; reflexivity.
Qed.

Lemma actAll_engine acts p w p' :
  forgetSnapshots (world p) = forgetSnapshots w →
  actAll random acts p = Some p' →
  ∃ w', execAll random (engineEvents acts) w = Some w'
        ∧ forgetSnapshots (world p') = forgetSnapshots w'.
Proof.
  revert p w. induction acts as [| [t a] acts IH]; intros p w Heq H.
  - injection H as <-. exists w. split; [reflexivity | exact Heq].
  - simpl in H. destruct (act random t a p) as [p1 |] eqn:E; [| discriminate].
    destruct (act_engine t a p p1 E) as (v1 & E1 & Hf).
    destruct (exec_forgets_snapshots random t _ _ w v1 Heq E1)
      as (v2 & E2 & Hf2).
    destruct (IH p1 v2) as (w' & Hrun & Hw'); [congruence | exact H |].
    exists w'. split; [| exact Hw'].
    cbn [engineEvents List.map execAll fst snd]. rewrite E2. exact Hrun.
Qed.

(** X19.  The page adds nothing to the game: a run of clicks, polls and
    tasks on the page takes the engine where the corresponding run of
    [startGame], [answerSeen], [answerNew], [getState] and tasks takes it,
    up to the objects that [getState] has returned. *)
Theorem page_plays_the_engine acts p p' :
  actAll random acts p = Some p' →
  ∃ w', execAll random (engineEvents acts) (world p) = Some w'
        ∧ forgetSnapshots (world p') = forgetSnapshots w'.
Proof.
  intros H. exact (actAll_engine acts p (world p) p' eq_refl H).
Qed.

Lemma act_quiet t a p p' :
  quiet a → gameState (state (world p)) ≠ PLAYING →
  act random t a p = Some p' →
  dom p' = dom p ∧ gameState (state (world p')) ≠ PLAYING.
Proof.
  intros Hq Hp H. destruct a; try contradiction; cbn [act] in H.
  - destruct (t <? clock (world p)); [discriminate |].
    destruct p as [w d]. destruct_world w. mcompute_in Hp. cbn [world dom] in *.
    revert H. mcompute. rewrite list_lookup_total_middle by reflexivity.
    cbn [gameState]. destruct gs; [| congruence |]; intros [= <-];
      split; [reflexivity | discriminate | reflexivity | discriminate].
  - destruct (exec random t e (world p)) as [w |] eqn:E; [| discriminate].
    injection H as <-. split; [reflexivity |]. cbn [world].
    destruct (exec_phase random t e (world p) w E)
      as [Hs | [(Hs & _) | (_ & Hs & _)]].
    + congruence.
    + destruct e; contradiction.
    + rewrite Hs. discriminate.
Qed.

(** X20.  The page shows the end of a game only after a click.  When a
    task, such as the tick on which the countdown runs out, leaves the
    phase outside PLAYING, the three elements keep what was rendered
    before that task, through every later poll and task, until a button
    is clicked or [startGame] is called: the poll renders in PLAYING
    only. *)
Theorem display_frozen_after_timeout t e p p1 acts p' :
  act random t (Task e) p = Some p1 →
  gameState (state (world p1)) ≠ PLAYING →
  Forall (λ ta, quiet (snd ta)) acts →
  actAll random acts p1 = Some p' →
  dom p' = dom p ∧ gameState (state (world p')) ≠ PLAYING.
Proof.
  intros H1 Hp Hq Hrun.
  assert (Hd : dom p1 = dom p).
  { cbn [act] in H1. destruct (exec random t e (world p)); [| discriminate].
    injection H1 as <-. reflexivity. }
  rewrite <- Hd. clear H1 Hd. revert p1 Hp Hrun.
  induction acts as [| [t' a] acts IH]; intros p1 Hp Hrun.
  - injection Hrun as <-. split; [reflexivity | exact Hp].
  - simpl in Hrun.
    destruct (act random t' a p1) as [p2 |] eqn:E; [| discriminate].
    inversion Hq as [| ? ? Ha Hq']; subst. cbn [snd] in Ha.
    destruct (act_quiet t' a p1 p2 Ha Hp E) as [Hd Hp2].
    destruct (IH Hq' p2 Hp2 Hrun) as [Hd' Hp']. split; [congruence | exact Hp'].
Qed.

End PageFacts.
End UIFacts.

(** ** The mode *)

Lemma lookup_map {A B : Type} (f : A → B) (l : list A) (n : nat) :
  List.map f l !! n = option_map f (l !! n).
Proof.
  revert n. induction l as [| a l IH]; intros [| n]; simpl; auto.
Qed.

Lemma map_delete {A B : Type} (f : A → B) (l : list A) (n : nat) :
  List.map f (delete n l) = delete n (List.map f l).
Proof.
  revert n. induction l as [| a l IH]; intros [| n]; simpl; auto.
  f_equal. apply IH.
Qed.

Ltac split_goal :=
  match goal with
  | |- context [match ?x with _ => _ end] =>
      lazymatch x with
      | context [match _ with _ => _ end] => fail
      | _ => destruct x eqn:?; mcompute; mlist; rewrite ?Pos.eqb_refl
      end
  end.

Ltac world_fields :=
  cbn [state timerInterval isProcessingAnswer arrays objects snapshots
       timeouts intervals nextHandle draws console clock].

Ltac same_run Hsn Hto :=
  mcompute; mlist; repeat split_goal;
  unfold forgetMode; world_fields;
  rewrite ?List.map_app, ?map_delete, ?Hsn, ?Hto;
  cbn [List.map eraseSavedMode callback due];
  unfold eraseMode; mcompute; try reflexivity.

Ltac two_worlds w1 w2 Heq Hsn Hto :=
  destruct_world w1;
  destruct w2 as [[at2 gs2 gm2 sc2 lv2 sw2 cw2 tv2]
                  ti2 g2 ar2 ob2 sn2 to2 iv2 nh2 dr2 co2 cl2];
  unfold forgetMode in Heq;
  cbn [state timerInterval isProcessingAnswer arrays objects snapshots
       timeouts intervals nextHandle draws console clock] in Heq;
  injection Heq as <- <- <- <- <- <- <- <- <- <- <- Hsn Hto <- <- <- <-.

Section Mode.

Variable random : nat → Q.

Lemma task_forgets_mode e w1 w2 :
  forgetMode w1 = forgetMode w2 →
  match task random e w1, task random e w2 with
  | Some (m1, v1), Some (m2, v2) =>
      forgetMode (run m1 v1) = forgetMode (run m2 v2)
  | None, None => True
  | _, _ => False
  end.
Proof.
  intros Heq. two_worlds w1 w2 Heq Hsn Hto.
  destruct e; cbn [task].
  1-5: same_run Hsn Hto.
  - world_fields.
    pose proof (f_equal (λ l, l !! n) Hto) as Hn. cbv beta in Hn.
    rewrite !lookup_map in Hn.
    destruct (to !! n) as [[d1 c1] |], (to2 !! n) as [[d2 c2] |];
      try discriminate Hn; [| exact I].
    cbn [option_map] in Hn. injection Hn as Hn.
    unfold eraseSavedMode in Hn. cbn [callback due] in Hn.
    destruct c1, c2; try discriminate Hn; injection Hn as <-; subst;
      cbn [due callback]; destruct (d1 <=? cl); try exact I;
      cbn [fire]; same_run Hsn Hto.
  - same_run Hsn Hto.
Qed.
Lemma exec_forgets_mode t e w1 w2 w1' :
  forgetMode w1 = forgetMode w2 →
  exec random t e w1 = Some w1' →
  ∃ w2', exec random t e w2 = Some w2' ∧ forgetMode w2' = forgetMode w1'.
Proof.
  intros Heq H. unfold exec in *.
  assert (Hcl : clock w1 = clock w2) by exact (f_equal clock Heq).
  rewrite <- Hcl. destruct (t <? clock w1); [discriminate |].
  assert (Heq' : forgetMode (set_clock t w1) = forgetMode (set_clock t w2)).
  { two_worlds w1 w2 Heq Hsn Hto. unfold forgetMode. mcompute.
    rewrite Hsn, Hto. reflexivity. }
  pose proof (task_forgets_mode e _ _ Heq') as Ht.
  destruct (task random e (set_clock t w1)) as [[m1 v1] |]; [| discriminate].
  destruct (task random e (set_clock t w2)) as [[m2 v2] |]; [| contradiction].
  injection H as <-. eexists. split; [reflexivity | now symmetry].
Qed.

Lemma execAll_forgets_mode es w1 w2 w1' :
  forgetMode w1 = forgetMode w2 →
  execAll random es w1 = Some w1' →
  ∃ w2', execAll random es w2 = Some w2' ∧ forgetMode w2' = forgetMode w1'.
Proof.
  revert w1 w2. induction es as [| [t e] es IH]; intros w1 w2 Heq H.
  - injection H as <-. exists w2. split; [reflexivity | now symmetry].
  - simpl in H. destruct (exec random t e w1) as [v1 |] eqn:E; [| discriminate].
    destruct (exec_forgets_mode t e w1 w2 v1 Heq E) as (v2 & E2 & Hv).
    simpl. rewrite E2. apply (IH v1 v2); [now symmetry | exact H].
Qed.

(** X21.  The mode has no effect on the game.  Whatever [setMode] is
    asked for, a valid mode or not, the same events then lead to the same
    game: the two worlds differ only in the value of [gameMode], in the
    state and in the objects that [getState] has returned, in the console
    and in the mode that a pending [saveScore] will print.  The words,
    their time limits, the lives and the score do not depend on the
    mode. *)
Theorem mode_changes_nothing_but_the_console
    (t : Z) (mode1 mode2 : string) (es : list (Z * Event)) (w v1 v1' : World) :
  exec random t (SetMode mode1) w = Some v1 →
  execAll random es v1 = Some v1' →
  ∃ v2 v2',
    exec random t (SetMode mode2) w = Some v2
    ∧ execAll random es v2 = Some v2'
    ∧ forgetMode v2' = forgetMode v1'.
Proof.
  intros H1 Hrun.
  assert (H2 : ∃ v2, exec random t (SetMode mode2) w = Some v2
                     ∧ forgetMode v1 = forgetMode v2).
  { unfold exec in *. destruct (t <? clock w); [discriminate |].
    cbn [task] in *. injection H1 as <-. eexists. split; [reflexivity |].
    destruct_world w. mcompute. repeat split_goal;
      unfold forgetMode, eraseMode; mcompute; reflexivity. }
  destruct H2 as (v2 & H2 & Heq).
  destruct (execAll_forgets_mode es v1 v2 v1' Heq Hrun) as (v2' & Hrun2 & Hv).
  exists v2, v2'. split; [exact H2 | split; [exact Hrun2 | exact Hv]].
Qed.
End Mode.

(** ** More instances *)

(** The theorem of X1 on the world in which "apple" is on display: its
    countdown is the one live interval. *)
Lemma one_countdown_alive_witness :
  reachable sampleRandom (worldAfter presented)
  ∧ timerOwned (worldAfter presented).
Proof.
  assert (H0 : reachable sampleRandom (worldAfter presented)).
  { apply (execAllOnTime_reachable sampleRandom presented).
    vm_compute. reflexivity. }
  split; [exact H0 |].
  exact (one_countdown_alive sampleRandom (worldAfter presented) H0).
Defined.

(** The theorem of X2 on the world of the lost round, in which a word is
    being fetched and a snapshot has been taken. *)
Lemma references_stay_valid_witness :
  reachable sampleRandom (worldAfter roundOver)
  ∧ refsValid (worldAfter roundOver).
Proof.
  assert (H0 : reachable sampleRandom (worldAfter roundOver)).
  { apply (execAllOnTime_reachable sampleRandom roundOver).
    vm_compute. reflexivity. }
  split; [exact H0 |].
  exact (references_stay_valid sampleRandom (worldAfter roundOver) H0).
Defined.

(** The theorem of X3 on the world in which one life is left. *)
Lemma lives_and_score_bounds_witness :
  reachable sampleRandom (worldAfter lastWord)
  ∧ boundsKept (worldAfter lastWord).
Proof.
  assert (H0 : reachable sampleRandom (worldAfter lastWord)).
  { apply (execAllOnTime_reachable sampleRandom lastWord).
    vm_compute. reflexivity. }
  split; [exact H0 |].
  exact (lives_and_score_bounds sampleRandom (worldAfter lastWord) H0).
Defined.

(** The theorem of X4 on the world in which the mode has been set to hard
    and then, in vain, to extreme. *)
Lemma mode_is_one_of_three_witness :
  reachable sampleRandom
    (worldAfter [(0, SetMode "hard"); (10, SetMode "extreme")])
  ∧ modeKnown (worldAfter [(0, SetMode "hard"); (10, SetMode "extreme")]).
Proof.
  assert (H0 : reachable sampleRandom
                 (worldAfter [(0, SetMode "hard"); (10, SetMode "extreme")])).
  { apply (execAllOnTime_reachable sampleRandom
             [(0, SetMode "hard"); (10, SetMode "extreme")]).
    vm_compute. reflexivity. }
  split; [exact H0 |].
  exact (mode_is_one_of_three sampleRandom _ H0).
Defined.

(** The theorem of X5 on the world in which "apple" has been appended
    twice. *)
Lemma seen_words_come_from_bank_witness :
  (∀ n, (0 <= sampleRandom n)%Q ∧ (sampleRandom n < 1)%Q)
  ∧ reachable sampleRandom (worldAfter doubleAnswer)
  ∧ (∀ x, In x (seenList (worldAfter doubleAnswer)) → knownWord x)
  ∧ knownWord (currentWord (worldAfter doubleAnswer)).
Proof.
  assert (H0 : reachable sampleRandom (worldAfter doubleAnswer)).
  { apply (execAllOnTime_reachable sampleRandom doubleAnswer).
    vm_compute. reflexivity. }
  split; [exact sampleRandom_range | split; [exact H0 |]].
  exact (seen_words_come_from_bank sampleRandom sampleRandom_range
           (worldAfter doubleAnswer) H0).
Defined.

(** The theorem of X6 on the answer that takes the last life. *)
Lemma phase_transitions_witness :
  exec sampleRandom 1600 AnswerNew
    (worldAfter
       (presented
        ++ [(1050, AnswerSeen); (1300, AnswerNew); (1550, Fire 0%nat)]))
  = Some (worldAfter gameLost)
  ∧ (gameState (state (worldAfter gameLost)) = MENU →
     gameState
       (state
          (worldAfter
             (presented
              ++ [(1050, AnswerSeen); (1300, AnswerNew); (1550, Fire 0%nat)])))
     = MENU).
Proof.
  assert (H1 : exec sampleRandom 1600 AnswerNew
                 (worldAfter
                    (presented
                     ++ [(1050, AnswerSeen); (1300, AnswerNew);
                         (1550, Fire 0%nat)]))
               = Some (worldAfter gameLost))
    by (vm_compute; reflexivity).
  split; [exact H1 |].
  exact (proj2 (phase_transitions sampleRandom _ _ _ _ H1)).
Defined.

(** The theorem of X7 on a [setMode] called while "apple" is on display. *)
Lemma mode_kept_while_playing_witness :
  gameState (state (worldAfter presented)) = PLAYING
  ∧ exec sampleRandom 1000 (SetMode "hard") (worldAfter presented)
    = Some (worldAfter (presented ++ [(1000, SetMode "hard")]))
  ∧ gameMode (state (worldAfter (presented ++ [(1000, SetMode "hard")])))
    = gameMode (state (worldAfter presented)).
Proof.
  assert (H1 : gameState (state (worldAfter presented)) = PLAYING)
    by (vm_compute; reflexivity).
  assert (H2 : exec sampleRandom 1000 (SetMode "hard") (worldAfter presented)
               = Some (worldAfter (presented ++ [(1000, SetMode "hard")])))
    by (vm_compute; reflexivity).
  split; [exact H1 | split; [exact H2 |]].
  exact (mode_kept_while_playing sampleRandom _ _ _ _ H1 H2).
Defined.

(** The theorem of X8 on the lost round and the run in which the late word
    arrives and its countdown runs out. *)
Lemma final_score_kept_until_next_start_witness :
  gameState (state (worldAfter gameLost)) ≠ PLAYING
  ∧ noStart
      ([(1650, Fire 1%nat); (1700, Fire 1%nat); (1750, Tick 2%positive);
        (1800, Fire 0%nat)] ++ ticks 2 1850 35)
  ∧ execAll sampleRandom
      ([(1650, Fire 1%nat); (1700, Fire 1%nat); (1750, Tick 2%positive);
        (1800, Fire 0%nat)] ++ ticks 2 1850 35)
      (worldAfter gameLost)
    = Some (worldAfter staleCountdown)
  ∧ gameState (state (worldAfter staleCountdown)) ≠ PLAYING
  ∧ currentScore (state (worldAfter staleCountdown))
    = currentScore (state (worldAfter gameLost)).
Proof.
  assert (H1 : gameState (state (worldAfter gameLost)) ≠ PLAYING)
    by (vm_compute; discriminate).
  assert (H2 : noStart
                 ([(1650, Fire 1%nat); (1700, Fire 1%nat);
                   (1750, Tick 2%positive); (1800, Fire 0%nat)]
                  ++ ticks 2 1850 35)).
  { unfold noStart. vm_compute.
    repeat (apply List.Forall_cons; [intros [] |]). apply List.Forall_nil. }
  assert (H3 : execAll sampleRandom
                 ([(1650, Fire 1%nat); (1700, Fire 1%nat);
                   (1750, Tick 2%positive); (1800, Fire 0%nat)]
                  ++ ticks 2 1850 35)
                 (worldAfter gameLost)
               = Some (worldAfter staleCountdown))
    by (vm_compute; reflexivity).
  split; [exact H1 | split; [exact H2 | split; [exact H3 |]]].
  exact (final_score_kept_until_next_start sampleRandom _ _ _ H1 H2 H3).
Defined.

(** The theorem of X10 on two ticks, at 1000 ms and at 2000 ms, of a
    countdown of 3.9 s armed at 100 ms. *)
Lemma countdown_display_never_increases_witness :
  clock (initial 1000) <= clock (initial 2000)
  ∧ (timerValue
       (state (run (GameEngine.tick 100 (39000 # 10)) (initial 2000)))
     <= timerValue
          (state (run (GameEngine.tick 100 (39000 # 10)) (initial 1000))))%Q.
Proof.
  assert (H1 : clock (initial 1000) <= clock (initial 2000))
    by (vm_compute; discriminate).
  split; [exact H1 |].
  exact (TimerFacts.countdown_display_never_increases
           100 (39000 # 10) (initial 1000) (initial 2000) H1).
Defined.

(** The theorem of X12 on the seen words ["apple"] and the draws of
    [sampleRandom], of which the first is 0. *)
Lemma getNextWord_repeat_witness :
  (∀ n, (0 <= sampleRandom n)%Q ∧ (sampleRandom n < 1)%Q)
  ∧ ["apple"] ≠ []
  ∧ (sampleRandom 0 < MockAPI.repeatChance)%Q
  ∧ In (word (fst (MockAPI.getNextWord sampleRandom ["apple"] 0))) ["apple"]
  ∧ snd (MockAPI.getNextWord sampleRandom ["apple"] 0) = 3%nat.
Proof.
  assert (H1 : ["apple"] ≠ @nil string) by discriminate.
  assert (H2 : (sampleRandom 0 < MockAPI.repeatChance)%Q)
    by (vm_compute; reflexivity).
  split; [exact sampleRandom_range | split; [exact H1 | split; [exact H2 |]]].
  pose proof (SupplierFacts.getNextWord_repeat
                sampleRandom sampleRandom_range ["apple"] 0 H1 H2) as H.
  destruct (MockAPI.getNextWord sampleRandom ["apple"] 0) as [wd k'].
  destruct H as (Hin & _ & Hk). split; [exact Hin | exact Hk].
Defined.

(** The theorem of X13 on the player who has seen the whole bank. *)
Lemma drawWord_bank_exhausted_witness :
  (∀ n, (0 <= sampleRandom n)%Q ∧ (sampleRandom n < 1)%Q)
  ∧ (∀ x, In x MockAPI.wordBank → In x MockAPI.wordBank)
  ∧ In (MockAPI.bankWord sampleRandom (0 + 49)) MockAPI.wordBank.
Proof.
  split; [exact sampleRandom_range | split; [exact (λ x H, H) |]].
  exact (proj2 (SupplierFacts.drawWord_bank_exhausted
                  sampleRandom sampleRandom_range MockAPI.wordBank 0
                  (λ x H, H))).
Defined.

(** The theorem of X14 on the first word of a game. *)
Lemma time_limit_tracks_difficulty_witness :
  (∀ n, (0 <= sampleRandom n)%Q ∧ (sampleRandom n < 1)%Q)
  ∧ ((4935 # 1000)
     - 3 * difficulty (fst (MockAPI.getNextWord sampleRandom [] 0))
     <= time_limit (fst (MockAPI.getNextWord sampleRandom [] 0)))%Q.
Proof.
  split; [exact sampleRandom_range |].
  pose proof (SupplierFacts.time_limit_tracks_difficulty
                sampleRandom sampleRandom_range [] 0) as H.
  destruct (MockAPI.getNextWord sampleRandom [] 0) as [wd k'].
  exact (proj1 H).
Defined.

(** The theorem of X15 on the initial world, in which no answer is being
    processed: NEW on the empty word of the constructor scores the first
    point of the game. *)
Lemma answer_right_after_start_witness :
  gameState (state (initial 0)) ≠ PLAYING
  ∧ isProcessingAnswer (initial 0) = false
  ∧ currentScore
      (state (run GameEngine.answerNew (run GameEngine.startGame (initial 0))))
    = 1
  ∧ seenList (run GameEngine.answerNew (run GameEngine.startGame (initial 0)))
    = [currentWord (initial 0)].
Proof.
  assert (H1 : gameState (state (initial 0)) ≠ PLAYING) by discriminate.
  assert (H2 : isProcessingAnswer (initial 0) = false) by reflexivity.
  split; [exact H1 | split; [exact H2 |]].
  destruct (RestartFacts.answer_right_after_start (initial 0) H1)
    as (_ & _ & _ & H & _).
  destruct (H H2) as (Hs & _ & Hl & _).
  split; [exact Hs | exact Hl].
Defined.

(** The theorem of X16 on the world in which one life is left and
    "matrix", not seen before, is on display. *)
Lemma guard_survives_restart_witness :
  gameState (state (worldAfter lastWord)) = PLAYING
  ∧ isProcessingAnswer (worldAfter lastWord) = false
  ∧ lives (state (worldAfter lastWord)) <= 1
  ∧ ¬ In (currentWord (worldAfter lastWord)) (seenList (worldAfter lastWord))
  ∧ gameState
      (state
         (run GameEngine.startGame
            (run GameEngine.answerSeen (worldAfter lastWord))))
    = PLAYING
  ∧ isProcessingAnswer
      (run GameEngine.startGame
         (run GameEngine.answerSeen (worldAfter lastWord)))
    = true.
Proof.
  assert (H1 : gameState (state (worldAfter lastWord)) = PLAYING)
    by (vm_compute; reflexivity).
  assert (H2 : isProcessingAnswer (worldAfter lastWord) = false)
    by (vm_compute; reflexivity).
  assert (H3 : lives (state (worldAfter lastWord)) <= 1)
    by (vm_compute; discriminate).
  assert (H4 : ¬ In (currentWord (worldAfter lastWord))
                   (seenList (worldAfter lastWord))).
  { vm_compute. intros [H | [H | []]]; discriminate H. }
  split; [exact H1 | split; [exact H2 |]].
  split; [exact H3 | split; [exact H4 |]].
  pose proof (RestartFacts.guard_survives_restart
                (worldAfter lastWord) H1 H2 H3 H4) as H.
  cbv zeta in H. destruct H as (_ & H & _). exact H.
Defined.

(** The theorem of X17 on the snapshot of the lost round and a new round,
    started at 1630 ms, in which the late word and a new one arrive and
    the player answers NEW. *)
Lemma snapshot_of_finished_round_is_stable_witness :
  (0 < length (snapshots (worldAfter roundOver)))%nat
  ∧ (seenWords (snapshots (worldAfter roundOver) !!! 0%nat)
     < length (arrays (worldAfter roundOver)))%nat
  ∧ gameState (state (worldAfter roundOver)) ≠ PLAYING
  ∧ exec sampleRandom 1630 StartGame (worldAfter roundOver)
    = Some (worldAfter (roundOver ++ [(1630, StartGame)]))
  ∧ execAll sampleRandom
      [(1650, Fire 1%nat); (1700, Fire 1%nat); (1730, Fire 1%nat);
       (1740, AnswerNew)]
      (worldAfter (roundOver ++ [(1630, StartGame)]))
    = Some
        (worldAfter
           (roundOver
            ++ [(1630, StartGame); (1650, Fire 1%nat); (1700, Fire 1%nat);
                (1730, Fire 1%nat); (1740, AnswerNew)]))
  ∧ snapshotSeen
      (worldAfter
         (roundOver
          ++ [(1630, StartGame); (1650, Fire 1%nat); (1700, Fire 1%nat);
              (1730, Fire 1%nat); (1740, AnswerNew)]))
      0%nat
    = snapshotSeen (worldAfter roundOver) 0%nat.
Proof.
  assert (H1 : (0 < length (snapshots (worldAfter roundOver)))%nat)
    by (vm_compute; lia).
  assert (H2 : (seenWords (snapshots (worldAfter roundOver) !!! 0%nat)
                < length (arrays (worldAfter roundOver)))%nat)
    by (vm_compute; lia).
  assert (H3 : gameState (state (worldAfter roundOver)) ≠ PLAYING)
    by (vm_compute; discriminate).
  assert (H4 : exec sampleRandom 1630 StartGame (worldAfter roundOver)
               = Some (worldAfter (roundOver ++ [(1630, StartGame)])))
    by (vm_compute; reflexivity).
  assert (H5 : execAll sampleRandom
                 [(1650, Fire 1%nat); (1700, Fire 1%nat); (1730, Fire 1%nat);
                  (1740, AnswerNew)]
                 (worldAfter (roundOver ++ [(1630, StartGame)]))
               = Some
                   (worldAfter
                      (roundOver
                       ++ [(1630, StartGame); (1650, Fire 1%nat);
                           (1700, Fire 1%nat); (1730, Fire 1%nat);
                           (1740, AnswerNew)])))
    by (vm_compute; reflexivity).
  split; [exact H1 | split; [exact H2 | split; [exact H3 |]]].
  split; [exact H4 | split; [exact H5 |]].
  exact (proj2 (snapshot_of_finished_round_is_stable sampleRandom
                  _ _ _ 0%nat _ _ H1 H2 H3 H4 H5)).
Defined.

(** The theorem of X18 on the world in which "apple" is on display, with
    and without a snapshot, and the answer NEW. *)
Lemma engine_never_reads_snapshots_witness :
  forgetSnapshots snapshotTaken = forgetSnapshots (worldAfter presented)
  ∧ execAll sampleRandom [(1050, AnswerNew)] snapshotTaken
    = Some (worldAfter (presented ++ [(1000, GetState); (1050, AnswerNew)]))
  ∧ ∃ w2',
      execAll sampleRandom [(1050, AnswerNew)] (worldAfter presented)
      = Some w2'
      ∧ forgetSnapshots w2'
        = forgetSnapshots
            (worldAfter (presented ++ [(1000, GetState); (1050, AnswerNew)])).
Proof.
  assert (H1 : forgetSnapshots snapshotTaken
               = forgetSnapshots (worldAfter presented))
    by (vm_compute; reflexivity).
  assert (H2 : execAll sampleRandom [(1050, AnswerNew)] snapshotTaken
               = Some (worldAfter
                         (presented ++ [(1000, GetState); (1050, AnswerNew)])))
    by (vm_compute; reflexivity).
  split; [exact H1 | split; [exact H2 |]].
  exact (engine_never_reads_snapshots sampleRandom _ _ _ _ H1 H2).
Defined.

(** The theorem of X19 on the game played on the page down to the last
    life. *)
Lemma page_plays_the_engine_witness :
  UI.actAll sampleRandom lastLife blankPage = Some (pageAfter lastLife)
  ∧ ∃ w',
      execAll sampleRandom (engineEvents lastLife) (UI.world blankPage)
      = Some w'
      ∧ forgetSnapshots (UI.world (pageAfter lastLife)) = forgetSnapshots w'.
Proof.
  assert (H1 : UI.actAll sampleRandom lastLife blankPage
               = Some (pageAfter lastLife))
    by (vm_compute; reflexivity).
  split; [exact H1 |].
  exact (UIFacts.page_plays_the_engine sampleRandom _ _ _ H1).
Defined.

(** The theorem of X20 on the page of that game: the countdown of
    "matrix" runs out at 5100 ms and ends the game, and the polls at
    5150 ms and 5250 ms leave on the page what the poll at 5050 ms rendered,
    a round in progress with one life. *)
Lemma display_frozen_after_timeout_witness :
  UI.act sampleRandom 5100 (UI.Task (Tick 3)) (pageAfter lastLife)
  = Some (pageAfter (lastLife ++ [(5100, UI.Task (Tick 3%positive))]))
  ∧ gameState
      (state
         (UI.world
            (pageAfter (lastLife ++ [(5100, UI.Task (Tick 3%positive))]))))
    ≠ PLAYING
  ∧ Forall (λ ta, UI.quiet (snd ta)) [(5150, UI.Poll); (5250, UI.Poll)]
  ∧ UI.actAll sampleRandom [(5150, UI.Poll); (5250, UI.Poll)]
      (pageAfter (lastLife ++ [(5100, UI.Task (Tick 3%positive))]))
    = Some
        (pageAfter
           (lastLife
            ++ [(5100, UI.Task (Tick 3%positive)); (5150, UI.Poll);
                (5250, UI.Poll)]))
  ∧ UI.dom
      (pageAfter
         (lastLife
          ++ [(5100, UI.Task (Tick 3%positive)); (5150, UI.Poll);
              (5250, UI.Poll)]))
    = UI.dom (pageAfter lastLife)
  ∧ UI.statusText (UI.dom (pageAfter lastLife))
    = [Lit "Score: "; Num 0; Lit " | Lives: "; Num 1; Lit " | ";
       Lit "Timer: "; Dec (1 # 10); Lit "s | State: "; Str "PLAYING"].
Proof.
  assert (H1 : UI.act sampleRandom 5100 (UI.Task (Tick 3)) (pageAfter lastLife)
               = Some (pageAfter
                         (lastLife ++ [(5100, UI.Task (Tick 3%positive))])))
    by (vm_compute; reflexivity).
  assert (H2 : gameState
                 (state
                    (UI.world
                       (pageAfter
                          (lastLife ++ [(5100, UI.Task (Tick 3%positive))]))))
               ≠ PLAYING)
    by (vm_compute; discriminate).
  assert (H3 : Forall (λ ta, UI.quiet (snd ta))
                 [(5150, UI.Poll); (5250, UI.Poll)]).
  { repeat (apply List.Forall_cons; [exact I |]). apply List.Forall_nil. }
  assert (H4 : UI.actAll sampleRandom [(5150, UI.Poll); (5250, UI.Poll)]
                 (pageAfter (lastLife ++ [(5100, UI.Task (Tick 3%positive))]))
               = Some
                   (pageAfter
                      (lastLife
                       ++ [(5100, UI.Task (Tick 3%positive)); (5150, UI.Poll);
                           (5250, UI.Poll)])))
    by (vm_compute; reflexivity).
  split; [exact H1 | split; [exact H2 |]].
  split; [exact H3 | split; [exact H4 |]].
  split.
  - exact (proj1 (UIFacts.display_frozen_after_timeout sampleRandom
                    _ _ _ _ _ _ H1 H2 H3 H4)).
  - vm_compute. reflexivity.
Defined.

(** The theorem of X21 on the game in which "apple" is presented, after
    [setMode] with hard and with easy. *)
Lemma mode_changes_nothing_but_the_console_witness :
  exec sampleRandom 0 (SetMode "hard") (initial 0)
  = Some (worldAfter [(0, SetMode "hard")])
  ∧ execAll sampleRandom presented (worldAfter [(0, SetMode "hard")])
    = Some (worldAfter ((0, SetMode "hard") :: presented))
  ∧ ∃ v2 v2',
      exec sampleRandom 0 (SetMode "easy") (initial 0) = Some v2
      ∧ execAll sampleRandom presented v2 = Some v2'
      ∧ forgetMode v2'
        = forgetMode (worldAfter ((0, SetMode "hard") :: presented)).
Proof.
  assert (H1 : exec sampleRandom 0 (SetMode "hard") (initial 0)
               = Some (worldAfter [(0, SetMode "hard")]))
    by (vm_compute; reflexivity).
  assert (H2 : execAll sampleRandom presented
                 (worldAfter [(0, SetMode "hard")])
               = Some (worldAfter ((0, SetMode "hard") :: presented)))
    by (vm_compute; reflexivity).
  split; [exact H1 | split; [exact H2 |]].
  exact (mode_changes_nothing_but_the_console sampleRandom
           0 "hard" "easy" presented _ _ _ H1 H2).
Defined.
